(** * ArmTracker: the websocket fan-out server and the arm-data extractor

  A shallow embedding of [tracking/mediapipe-arm-tracking.py].

  The Python class [ArmTracker] owns a set of connected websockets
  ([self.connected_clients]), an unbounded [queue.Queue]
  ([self.message_queue]) filled by the camera thread, a per-connection
  coroutine [handler] and one coroutine [broadcast_messages] that polls the
  queue every 10 ms and sends every dequeued message to every connected
  websocket. *)

From Stdlib Require Import PrimFloat.
From stdpp Require Import gmap list.

Open Scope nat_scope.

#[local] Set Warnings "-clear-no-such-hyp".

(** ** Part 1: [extract_arm_data] *)

Module Pose.

(** A MediaPipe landmark: the four fields the extractor reads.  Python
    floats are IEEE-754 binary64 values, as are Rocq's primitive floats. *)
Record landmark := Landmark {
  x : float;
  y : float;
  z : float;
  visibility : float
}.

(** The value of [results] that [extract_arm_data] looks at:
    [results.pose_world_landmarks] is [None] or a landmark list whose
    [.landmark] field is indexed by position. *)
Record pose_result := PoseResult {
  pose_world_landmarks : option (list landmark)
}.

(** [mp_pose.PoseLandmark.*.value], the indices of MediaPipe's pose
    topology. *)
Definition LEFT_SHOULDER : nat := 11.
Definition RIGHT_SHOULDER : nat := 12.
Definition LEFT_WRIST : nat := 15.
Definition RIGHT_WRIST : nat := 16.

(** MediaPipe Pose reports 33 landmarks whenever it reports any. *)
Definition NUM_LANDMARKS : nat := 33.

Definition well_formed (r : pose_result) : Prop :=
  match pose_world_landmarks r with
  | None => True
  | Some l => length l = NUM_LANDMARKS
  end.

(** The inner dictionaries [{'x':..,'y':..,'z':..,'visibility':..}] and
    [{'shoulder':..,'wrist':..}], and the returned [arm_data]. *)
Record point := Point {
  px : float;
  py : float;
  pz : float;
  pvisibility : float
}.

Record arm := Arm {
  shoulder : point;
  wrist : point
}.

Record arm_data := ArmData {
  timestamp : float;
  left_arm : option arm;
  right_arm : option arm
}.

Inductive error := IndexError.

(** [landmarks[i]]: raises [IndexError] out of range. *)
Definition index (landmarks : list landmark) (i : nat) : error + landmark :=
  match landmarks !! i with
  | Some lm => inr lm
  | None => inl IndexError
  end.

Definition point_of (lm : landmark) : point :=
  {| px := x lm; py := y lm; pz := z lm; pvisibility := visibility lm |}.

(** [v > 0.5] on floats (false on NaN). *)
Definition visible (lm : landmark) : bool := PrimFloat.ltb 0.5%float (visibility lm).

(** One of the two [if landmarks[S].visibility > 0.5 and
    landmarks[W].visibility > 0.5: arm_data[..] = {...}] blocks.  Python's
    [and] short-circuits: the wrist is only indexed when the shoulder is
    visible. *)
Definition extract_arm (landmarks : list landmark) (s w : nat)
  : error + option arm :=
  match index landmarks s with
  | inl e => inl e
  | inr ls =>
      if visible ls then
        match index landmarks w with
        | inl e => inl e
        | inr lw =>
            if visible lw
            then inr (Some {| shoulder := point_of ls; wrist := point_of lw |})
            else inr None
        end
      else inr None
  end.

(** [extract_arm_data(self, results)]; [now] is the value [time.time()]
    returns. *)
Definition extract_arm_data (now : float) (results : pose_result)
  : error + arm_data :=
  match pose_world_landmarks results with
  | None => inr {| timestamp := now; left_arm := None; right_arm := None |}
  | Some landmarks =>
      match extract_arm landmarks LEFT_SHOULDER LEFT_WRIST with
      | inl e => inl e
      | inr l =>
          match extract_arm landmarks RIGHT_SHOULDER RIGHT_WRIST with
          | inl e => inl e
          | inr r => inr {| timestamp := now; left_arm := l; right_arm := r |}
          end
      end
  end.

(** What is to be found in an arm field of the returned record, for the
    shoulder and wrist at indices [s] and [w]: the field is filled exactly
    when world landmarks are present and both visibilities exceed 0.5, and
    then it holds the coordinates and visibilities of the two landmarks. *)
Definition reports_arm (r : pose_result) (s w : nat) (a : option arm) : Prop :=
  (is_Some a ↔
   ∃ l ls lw, pose_world_landmarks r = Some l ∧ l !! s = Some ls ∧ l !! w = Some lw ∧
              PrimFloat.ltb 0.5%float (visibility ls) = true ∧
              PrimFloat.ltb 0.5%float (visibility lw) = true) ∧
  (∀ v, a = Some v →
   ∃ l ls lw, pose_world_landmarks r = Some l ∧ l !! s = Some ls ∧ l !! w = Some lw ∧
              shoulder v = {| px := x ls; py := y ls; pz := z ls;
                              pvisibility := visibility ls |} ∧
              wrist v = {| px := x lw; py := y lw; pz := z lw;
                           pvisibility := visibility lw |}).

End Pose.

(** ** Part 2: the websocket server *)

(** A websocket object handed to [handler]; each accepted connection gets a
  new one. *)
Abbreviation ws := nat (only parsing).

Section Server.

(** What the camera thread puts on the queue (line 128: the [arm_data]
    dictionary); the server never inspects it. *)
Context {message : Type}.

(** What travels to a client: [json.dumps({"status": "connected"})] or
    [json.dumps(message)]. *)
Inductive wire :=
| Welcome
| Sample (m : message).

(** The observable history of a run, oldest event first. *)
Inductive event :=
| EvAdd (c : ws)               (* connected_clients.add(c) *)
| EvRemove (c : ws)            (* connected_clients.remove(c) returned *)
| EvRecv (c : ws) (w : wire)   (* c.send(w) handed w to the connection *)
| EvPut (m : message)          (* message_queue.put(m) returned *)
| EvGet (m : message).         (* message_queue.get_nowait() returned m *)

Inductive exn :=
| KeyError            (* set.remove of an absent element *)
| ConnectionClosed    (* send on a closed connection *)
| Empty.              (* get_nowait on an empty queue *)

(** [queue.Queue(maxsize)]: [maxsize <= 0] means unbounded. *)
Record Queue := MkQueue {
  maxsize : nat;
  items : list message
}.

(** The two shared objects of [ArmTracker], and around them what the
    program's behaviour depends on: which connections the network has
    closed, which [handler] coroutines are suspended, which websocket objects
    exist already, and what has happened so far. *)
Record state := MkState {
  connected_clients : gset nat;   (* self.connected_clients *)
  message_queue : Queue;          (* self.message_queue *)
  closed : gset nat;              (* connections that are closed: send raises *)
  waiting : gset nat;             (* handlers suspended in wait_closed() *)
  known : gset nat;               (* websocket objects already given to handler *)
  trace : list event
}.

(** [ArmTracker.__init__]: [set()] and [queue.Queue()]. *)
Definition init : state :=
  {| connected_clients := ∅;
     message_queue := {| maxsize := 0; items := [] |};
     closed := ∅; waiting := ∅; known := ∅; trace := [] |}.

Definition set_clients (s : gset nat) (st : state) : state :=
  {| connected_clients := s; message_queue := message_queue st;
     closed := closed st; waiting := waiting st; known := known st;
     trace := trace st |}.

Definition set_queue (q : Queue) (st : state) : state :=
  {| connected_clients := connected_clients st; message_queue := q;
     closed := closed st; waiting := waiting st; known := known st;
     trace := trace st |}.

Definition set_closed (s : gset nat) (st : state) : state :=
  {| connected_clients := connected_clients st; message_queue := message_queue st;
     closed := s; waiting := waiting st; known := known st;
     trace := trace st |}.

Definition set_waiting (s : gset nat) (st : state) : state :=
  {| connected_clients := connected_clients st; message_queue := message_queue st;
     closed := closed st; waiting := s; known := known st;
     trace := trace st |}.

Definition set_known (s : gset nat) (st : state) : state :=
  {| connected_clients := connected_clients st; message_queue := message_queue st;
     closed := closed st; waiting := waiting st; known := s;
     trace := trace st |}.

Definition emits (es : list event) (st : state) : state :=
  {| connected_clients := connected_clients st; message_queue := message_queue st;
     closed := closed st; waiting := waiting st; known := known st;
     trace := trace st ++ es |}.

Definition emit (e : event) (st : state) : state := emits [e] st.

(** *** Reading the history *)

Definition recv_by (c : ws) (e : event) : option wire :=
  match e with
  | EvRecv c' w => if decide (c' = c) then Some w else None
  | _ => None
  end.

Definition put_of (e : event) : option message :=
  match e with EvPut m => Some m | _ => None end.

Definition get_of (e : event) : option message :=
  match e with EvGet m => Some m | _ => None end.

Definition sample_of (w : wire) : option message :=
  match w with Sample m => Some m | Welcome => None end.

Definition is_add (e : event) : bool :=
  match e with EvAdd _ => true | _ => false end.

Definition is_remove (e : event) : bool :=
  match e with EvRemove _ => true | _ => false end.

(** The messages client [c] has received, in order of arrival. *)
Definition inbox (c : ws) (st : state) : list wire := omap (recv_by c) (trace st).

(** The samples among them. *)
Definition samples (l : list wire) : list message := omap sample_of l.

Definition enqueued (st : state) : list message := omap put_of (trace st).
Definition dequeued (st : state) : list message := omap get_of (trace st).

Definition adds (st : state) : nat := length (List.filter is_add (trace st)).
Definition removes (st : state) : nat := length (List.filter is_remove (trace st)).

(** [len(self.connected_clients)], the number [start_camera] draws. *)
Definition client_count (st : state) : nat := size (connected_clients st).

(** *** Computations that may raise *)

Inductive result (A : Type) :=
| Ok (a : A) (st : state)
| Raise (e : exn) (st : state).
Arguments Ok {A} a st.
Arguments Raise {A} e st.

Definition M (A : Type) : Type := state → result A.

Definition ret {A} (a : A) : M A := λ st, Ok a st.

Definition bind {A B} (m : M A) (k : A → M B) : M B :=
  λ st, match m st with
        | Ok a st1 => k a st1
        | Raise e st1 => Raise e st1
        end.

Definition state_of {A} (r : result A) : state :=
  match r with Ok _ st => st | Raise _ st => st end.

(** The exceptional exit of [try: body finally: fin]: when [body] raises,
    [fin] runs, and the exception (or the one [fin] raises) goes on. *)
Definition finally_on_raise {A} (body : M A) (fin : M unit) : M A :=
  λ st, match body st with
        | Ok a st1 => Ok a st1
        | Raise e st1 =>
            match fin st1 with
            | Ok _ st2 => Raise e st2
            | Raise e' st2 => Raise e' st2
            end
        end.

Notation "x <~ m ; k" := (bind m (λ x, k))
  (at level 20, m at level 100, k at level 200, only parsing).

Definition modify (f : state → state) : M unit := λ st, Ok tt (f st).
Definition raise {A} (e : exn) : M A := λ st, Raise e st.
Definition read {A} (f : state → A) : M A := λ st, Ok (f st) st.

(** *** The Python and websockets primitives the server calls *)

(** [self.connected_clients.add(c)]. *)
Definition set_add (c : ws) : M unit :=
  modify (λ st, emit (EvAdd c) (set_clients ({[c]} ∪ connected_clients st) st)).

(** [self.connected_clients.remove(c)]: [set.remove] raises [KeyError]
    when the element is absent. *)
Definition set_remove (c : ws) : M unit :=
  s <~ read connected_clients;
  if decide (c ∈ s)
  then modify (λ st, emit (EvRemove c) (set_clients (s ∖ {[c]}) st))
  else raise KeyError.

(** [await c.send(w)]: the message is handed to the connection, or the
    call raises because the connection is closed.  Either happens when the
    call is made: websockets writes the frame, or raises, before [send]
    first suspends. *)
Definition ws_send (c : ws) (w : wire) : M unit :=
  cl <~ read closed;
  if decide (c ∈ cl) then raise ConnectionClosed else modify (emit (EvRecv c w)).

(** [Queue.empty()]. *)
Definition Queue_empty (q : Queue) : bool :=
  match items q with [] => true | _ :: _ => false end.

(** [Queue.put(item)] with the default [block=True, timeout=None]: on a
    bounded queue that is full the call waits ([None]); otherwise the item
    goes to the tail. *)
Definition Queue_put (m : message) (q : Queue) : option Queue :=
  if decide (0 < maxsize q ∧ maxsize q ≤ length (items q))
  then None
  else Some {| maxsize := maxsize q; items := items q ++ [m] |}.

(** [self.message_queue.get_nowait()]: the head, or [Empty]. *)
Definition get_nowait : M message :=
  q <~ read message_queue;
  match items q with
  | [] => raise Empty
  | m :: rest =>
      _ <~ modify (λ st, emit (EvGet m) (set_queue {| maxsize := maxsize q; items := rest |} st));
      ret m
  end.

(** [await asyncio.gather] over the tasks, with the default
    [return_exceptions=False]: every awaitable is scheduled; the first
    exception is what the awaiting coroutine sees, and the other awaitables
    are not cancelled and run on. *)
Fixpoint gather (tasks : list (M unit)) : M unit :=
  match tasks with
  | [] => ret tt
  | t :: ts =>
      λ st, match t st with
            | Ok _ st1 => gather ts st1
            | Raise e st1 => Raise e (state_of (gather ts st1))
            end
  end.

(** *** [ArmTracker.queue_message] (camera thread) *)

(** [None]: the call does not return. *)
Definition queue_message (m : message) (st : state) : option state :=
  match Queue_put m (message_queue st) with
  | Some q => Some (emit (EvPut m) (set_queue q st))
  | None => None
  end.

(** *** [handler] *)

(** Lines 43-50 of [handler]: from the call to the point where the
    coroutine suspends in [wait_closed()], or leaves through [finally]
    because the welcome message could not be sent.  No other coroutine
    runs in between: asyncio switches coroutines only at a suspension. *)
Definition handler_connect (c : ws) : M unit :=
  _ <~ set_add c;
  _ <~ finally_on_raise (ws_send c Welcome) (set_remove c);
  modify (λ st, set_waiting ({[c]} ∪ waiting st) st).

(** Lines 50-53 of [handler]: [wait_closed()] returns and [finally]
    runs. *)
Definition handler_disconnect (c : ws) : M unit :=
  _ <~ modify (λ st, set_waiting (waiting st ∖ {[c]}) st);
  set_remove c.

(** *** [broadcast_messages] *)

(** Lines 63-67, the body of the inner [while].  The list comprehension
    walks the set once, so the sends go to the clients registered at that
    moment; [json.dumps] does not fail on the records the camera thread
    queues. *)
Definition broadcast_one : M unit :=
  message <~ get_nowait;
  clients <~ read connected_clients;
  if decide (clients ≠ ∅)
  then gather (map (λ c, ws_send c (Sample message)) (elements clients))
  else ret tt.

(** Lines 62-67, [while not self.message_queue.empty(): ...], run without
    another thread or coroutine in between.  [None]: out of fuel. *)
Fixpoint drain (fuel : nat) (st : state) : option (result unit) :=
  match fuel with
  | 0 => None
  | S fuel' =>
      if Queue_empty (message_queue st) then Some (Ok tt st)
      else match broadcast_one st with
           | Ok _ st1 => drain fuel' st1
           | Raise e st1 => Some (Raise e st1)
           end
  end.

(** Lines 58-69, one turn of the outer [while True]: sleep, drain, and on
    an exception print it. *)
Definition tick (st : state) : option state :=
  state_of <$> drain (S (length (items (message_queue st)))) st.

(** [n] turns of the outer loop. *)
Fixpoint broadcast_messages (n : nat) (st : state) : option state :=
  match n with
  | 0 => Some st
  | S n' =>
      match tick st with
      | Some st1 => broadcast_messages n' st1
      | None => None
      end
  end.

(** *** The whole program

    The camera thread, the handlers and the broadcaster interleave.  A
    label is one uninterrupted piece of one of them. *)
Inductive label :=
| Connect (c : ws)        (* a new connection reaches handler *)
| PeerClose (c : ws)      (* connection c closes *)
| Disconnect (c : ws)     (* handler of c resumes from wait_closed() *)
| Enqueue (m : message)   (* the camera thread calls queue_message *)
| Broadcast.              (* one pass of the broadcaster's inner loop *)

(** [None]: the label cannot happen in this state.  A websocket object
    reaches [handler] once; [wait_closed()] returns once the connection is
    closed; the inner loop is entered on a non-empty queue. *)
Definition exec (l : label) (st : state) : option state :=
  match l with
  | Connect c =>
      if decide (c ∈ known st) then None
      else Some (state_of (handler_connect c (set_known ({[c]} ∪ known st) st)))
  | PeerClose c => Some (set_closed ({[c]} ∪ closed st) st)
  | Disconnect c =>
      if decide (c ∈ waiting st ∧ c ∈ closed st)
      then Some (state_of (handler_disconnect c st))
      else None
  | Enqueue m => queue_message m st
  | Broadcast =>
      if Queue_empty (message_queue st) then None
      else Some (state_of (broadcast_one st))
  end.

Fixpoint run (ls : list label) (st : state) : option state :=
  match ls with
  | [] => Some st
  | l :: ls' =>
      match exec l st with
      | Some st1 => run ls' st1
      | None => None
      end
  end.

Definition reachable (st : state) : Prop := ∃ ls, run ls init = Some st.

(** The state a run from [init] ends in ([init] itself when the run cannot
    happen). *)
Definition state_after (ls : list label) : state := default init (run ls init).

(** ** Vocabulary for the statements *)

Definition open_in (st : state) (c : ws) : Prop := c ∉ closed st.

#[global] Instance open_in_dec st c : Decision (open_in st c) :=
  decide (c ∉ closed st).

(** The events a fan-out of [w] to [cs] leaves in the history. *)
Definition deliveries (w : wire) (cs : list ws) (st : state) : list event :=
  map (λ c, EvRecv c w) (filter (open_in st) cs).

(** The state after one pass of the inner loop: the head is gone from the
    queue, and every registered client whose connection is open has got
    it. *)
Definition after_broadcast (m : message) (rest : list message) (st : state) : state :=
  emits (EvGet m :: deliveries (Sample m) (elements (connected_clients st)) st)
    (set_queue {| maxsize := maxsize (message_queue st); items := rest |} st).

Definition all_open (st : state) : Prop :=
  Forall (open_in st) (elements (connected_clients st)).

(** Invariants of the running server. *)

Record inv (st : state) : Prop := {
  inv_max : maxsize (message_queue st) = 0;
  inv_wait : waiting st ⊆ connected_clients st;
  inv_known : connected_clients st ⊆ known st;
  inv_count : client_count st + removes st = adds st;
  inv_fifo : enqueued st = dequeued st ++ items (message_queue st);
  inv_fresh : ∀ c, c ∉ known st → inbox c st = [];
  inv_first : ∀ c w, head (inbox c st) = Some w → w = Welcome;
  inv_member : ∀ c, c ∈ connected_clients st → inbox c st ≠ [];
  inv_order : ∀ c, samples (inbox c st) `sublist_of` dequeued st
}.

End Server.

Arguments Ok {message A} a st.
Arguments Raise {message A} e st.
Arguments wire : clear implicits.
Arguments event : clear implicits.
Arguments Queue : clear implicits.
Arguments state : clear implicits.
Arguments result : clear implicits.
Arguments M : clear implicits.
Arguments label : clear implicits.
Arguments inv {message} st.

(** ** The camera loop and the server flag *)

Module Camera.

(** What [self.pose.process(image_rgb)] returns, as far as [start_camera]
    looks at it: [results.pose_landmarks] is tested for presence and handed
    to the drawing code, [results.pose_world_landmarks] is what
    [extract_arm_data] reads. *)
Record results := Results {
  pose_landmarks : option (list Pose.landmark);
  pose_world : Pose.pose_result
}.

(** The [ArmTracker] object as the camera thread sees it: the server's
    shared state and [self.server_running]. *)
Record tracker := Tracker {
  server : state Pose.arm_data;
  server_running : bool
}.

Inductive error :=
| ValueError                  (* draw_landmarks: a connection outside the list *)
| Extract (e : Pose.error).   (* extract_arm_data raised *)

(** Lines 117-121, [self.mp_drawing.draw_landmarks(image,
    results.pose_landmarks, self.mp_pose.POSE_CONNECTIONS)], as far as it can
    fail: MediaPipe raises [ValueError] when a connection names a landmark
    index that is not in the list, and the pose connections go up to the
    last of the 33 landmarks. *)
Definition draw_landmarks (lms : list Pose.landmark) : option error :=
  if decide (length lms < Pose.NUM_LANDMARKS) then Some ValueError else None.

Inductive frame_result :=
| Done (t : tracker)     (* lines 116-128 ran to their end *)
| Failed (e : error)     (* draw_landmarks or extract_arm_data raised *)
| Stuck.                 (* queue_message does not return *)

(** Lines 116-128 of [start_camera], the part of one turn of the camera
    loop that touches the tracker: when the frame has pose landmarks, they
    are drawn, the arm data are extracted and, if the server is running,
    queued. *)
Definition process_frame (res : results) (now : float) (t : tracker) : frame_result :=
  match pose_landmarks res with
  | None => Done t
  | Some lms =>
      match draw_landmarks lms with
      | Some e => Failed e
      | None =>
          match Pose.extract_arm_data now (pose_world res) with
          | inl e => Failed (Extract e)
          | inr arm_data =>
              if server_running t then
                match queue_message arm_data (server t) with
                | Some s => Done {| server := s; server_running := server_running t |}
                | None => Stuck
                end
              else Done t
          end
      end
  end.

(** Lines 143-145: [key = cv2.waitKey(5) & 0xFF; if key == ord('q'): break]. *)
Definition quit_key (key : Z) : bool := (Z.land key 255 =? 113)%Z.

End Camera.

(** When the block of [extract_arm_data] for the shoulder at [s] and the
    wrist at [w] indexes outside the landmark list: the shoulder is missing,
    or it is visible and the wrist is missing. *)
Definition arm_out_of_range (l : list Pose.landmark) (s w : nat) : Prop :=
  l !! s = None ∨ ∃ ls, l !! s = Some ls ∧ Pose.visible ls = true ∧ l !! w = None.

(** ** Part 3: properties *)

Section ServerFacts.

Context {message : Type}.
Implicit Types (st : state message) (m : message) (w : wire message) (c : ws).

(** ** Facts about the primitives *)

Lemma emits_emits es1 es2 st : emits es2 (emits es1 st) = emits (es1 ++ es2) st.
Proof. unfold emits; simpl. by rewrite app_assoc. Qed.

Lemma emits_nil st : emits [] st = st.
Proof. destruct st; unfold emits; simpl. by rewrite app_nil_r. Qed.

Lemma gather_sends w cs st :
  gather (map (λ c, ws_send c w) cs) st
  = (if decide (Forall (open_in st) cs) then Ok tt else Raise ConnectionClosed)
      (emits (deliveries w cs st) st).
Proof.
  unfold deliveries.
  assert (Hgen : ∀ st0, closed st0 = closed st →
    gather (map (λ c, ws_send c w) cs) st0
    = (if decide (Forall (open_in st) cs) then Ok tt else Raise ConnectionClosed)
        (emits (map (λ c, EvRecv c w) (filter (open_in st) cs)) st0)).
  { induction cs as [|c cs IH]; intros st0 Hcl.
    - cbn [map gather filter list_filter]. rewrite emits_nil.
      destruct (decide (Forall (open_in st) [])) as [|HF]; [done|].
      destruct HF; constructor.
    - cbn [map gather]. unfold ws_send at 1, bind, read. rewrite Hcl.
      destruct (decide (c ∈ closed st)) as [Hc|Hc].
      + unfold raise. rewrite (IH st0 Hcl).
        rewrite filter_cons_False by (unfold open_in; tauto).
        destruct (decide (Forall (open_in st) (c :: cs))) as [HF|HF].
        * apply Forall_cons in HF as [HF _]. by destruct HF.
        * by destruct (decide (Forall (open_in st) cs)).
      + unfold modify. rewrite (IH (emit (EvRecv c w) st0)) by done.
        rewrite filter_cons_True by done. cbn [map].
        unfold emit. rewrite emits_emits. cbn [app].
        destruct (decide (Forall (open_in st) cs)) as [HF|HF];
          destruct (decide (Forall (open_in st) (c :: cs))) as [HF'|HF']; try done.
        * destruct HF'. by constructor.
        * apply Forall_cons in HF' as [_ HF']. by destruct HF. }
  by apply Hgen.
Qed.

Lemma broadcast_one_eq st m rest :
  items (message_queue st) = m :: rest →
  broadcast_one st
  = (if decide (all_open st) then Ok tt else Raise ConnectionClosed)
      (after_broadcast m rest st).
Proof.
  intros Hq. unfold broadcast_one, get_nowait, bind, read. rewrite Hq.
  unfold modify, ret. cbn [connected_clients emit emits set_queue].
  unfold all_open, after_broadcast.
  destruct (decide (connected_clients st ≠ ∅)) as [Hne|He].
  - rewrite gather_sends. unfold deliveries, open_in, emit, emits, set_queue.
    cbn. rewrite <- app_assoc. cbn.
    by destruct (decide (Forall _ _)).
  - assert (connected_clients st = ∅) as -> by (by destruct (decide (connected_clients st = ∅)); [|destruct He]).
    rewrite elements_empty. unfold deliveries. cbn [filter list_filter map].
    destruct (decide (Forall (open_in st) [])) as [|HF]; [done|].
    destruct HF; constructor.
Qed.

Lemma broadcast_one_empty st :
  items (message_queue st) = [] → broadcast_one st = Raise Empty st.
Proof.
  intros Hq. unfold broadcast_one, get_nowait, bind, read. by rewrite Hq.
Qed.

Lemma handler_connect_eq c st :
  handler_connect c st
  = if decide (c ∈ closed st)
    then Raise ConnectionClosed
           (emits [EvAdd c; EvRemove c]
              (set_clients (({[c]} ∪ connected_clients st) ∖ {[c]}) st))
    else Ok tt
           (set_waiting ({[c]} ∪ waiting st)
              (emits [EvAdd c; EvRecv c Welcome]
                 (set_clients ({[c]} ∪ connected_clients st) st))).
Proof.
  destruct st as [cc q cl wt kn tr].
  unfold handler_connect, set_add, finally_on_raise, ws_send, set_remove,
    bind, read, modify, raise. cbn.
  destruct (decide (c ∈ cl)) as [Hc|Hc]; cbn.
  - rewrite decide_True by set_solver.
    unfold emit, emits, set_clients; cbn. by rewrite <- app_assoc.
  - unfold emit, emits, set_clients, set_waiting; cbn. by rewrite <- app_assoc.
Qed.

Lemma handler_disconnect_eq c st :
  handler_disconnect c st
  = if decide (c ∈ connected_clients st)
    then Ok tt (emits [EvRemove c]
                  (set_clients (connected_clients st ∖ {[c]})
                     (set_waiting (waiting st ∖ {[c]}) st)))
    else Raise KeyError (set_waiting (waiting st ∖ {[c]}) st).
Proof.
  unfold handler_disconnect, set_remove, bind, read, modify, raise. cbn.
  by destruct (decide (c ∈ connected_clients st)).
Qed.

(** ** Reading the history of an extended trace *)

Lemma inbox_emits c es st : inbox c (emits es st) = inbox c st ++ omap (recv_by c) es.
Proof. unfold inbox; cbn. apply omap_app. Qed.

Lemma enqueued_emits es st : enqueued (emits es st) = enqueued st ++ omap put_of es.
Proof. unfold enqueued; cbn. apply omap_app. Qed.

Lemma dequeued_emits es st : dequeued (emits es st) = dequeued st ++ omap get_of es.
Proof. unfold dequeued; cbn. apply omap_app. Qed.

Lemma adds_emits es st :
  adds (emits es st) = adds st + length (List.filter is_add es).
Proof. unfold adds; cbn. by rewrite List.filter_app, length_app. Qed.

Lemma removes_emits es st :
  removes (emits es st) = removes st + length (List.filter is_remove es).
Proof. unfold removes; cbn. by rewrite List.filter_app, length_app. Qed.

Lemma deliveries_put w cs st : omap put_of (deliveries w cs st) = [].
Proof. unfold deliveries. induction (filter _ cs); by cbn. Qed.

Lemma deliveries_get w cs st : omap get_of (deliveries w cs st) = [].
Proof. unfold deliveries. induction (filter _ cs); by cbn. Qed.

Lemma deliveries_add w cs st : List.filter is_add (deliveries w cs st) = [].
Proof. unfold deliveries. induction (filter _ cs); by cbn. Qed.

Lemma deliveries_remove w cs st : List.filter is_remove (deliveries w cs st) = [].
Proof. unfold deliveries. induction (filter _ cs); by cbn. Qed.

Lemma recv_absent c w (l : list ws) :
  c ∉ l → omap (recv_by c) (map (λ c', EvRecv c' w) l) = [].
Proof.
  induction l as [|c' l IH]; [done|]. intros Hc.
  apply not_elem_of_cons in Hc as [Hne Hc]. cbn.
  rewrite decide_False by done. by apply IH.
Qed.

(** In a fan-out over distinct clients, [c] gets the message once if it
    is one of them and its connection is open, and not at all otherwise. *)
Lemma deliveries_recv c w cs st :
  NoDup cs →
  omap (recv_by c) (deliveries w cs st)
  = if decide (c ∈ cs ∧ open_in st c) then [w] else [].
Proof.
  unfold deliveries. induction 1 as [|c' cs Hc' Hnd IH].
  - cbn. rewrite decide_False; [done|]. intros [H _]. by apply not_elem_of_nil in H.
  - destruct (decide (open_in st c')) as [Ho|Ho].
    + rewrite filter_cons_True by done. cbn [map omap list_omap recv_by].
      destruct (decide (c' = c)) as [->|Hne].
      * rewrite decide_True by (split; [left|done]).
        rewrite recv_absent; [done|].
        intros Hin. apply list_elem_of_filter in Hin as [_ Hin]. done.
      * cbn. rewrite IH.
        destruct (decide (c ∈ cs ∧ open_in st c)) as [[H1 H2]|Hn].
        -- rewrite decide_True; [done|]. split; [by right|done].
        -- rewrite decide_False; [done|]. intros [H1 H2].
           apply elem_of_cons in H1 as [->|H1]; [done|]. by apply Hn.
    + rewrite filter_cons_False by done. rewrite IH.
      destruct (decide (c ∈ cs ∧ open_in st c)) as [[H1 H2]|Hn].
      * rewrite decide_True; [done|]. split; [by right|done].
      * rewrite decide_False; [done|]. intros [H1 H2].
        apply elem_of_cons in H1 as [->|H1]; [done|]. by apply Hn.
Qed.

Lemma inbox_after_broadcast c m rest st :
  inbox c (after_broadcast m rest st)
  = inbox c st
    ++ if decide (c ∈ connected_clients st ∧ open_in st c) then [Sample m] else [].
Proof.
  unfold after_broadcast. rewrite inbox_emits. cbn [omap list_omap recv_by].
  rewrite deliveries_recv by apply NoDup_elements.
  f_equal. destruct (decide (c ∈ connected_clients st ∧ open_in st c)) as [[H1 H2]|Hn].
  - rewrite decide_True; [done|]. split; [by apply elem_of_elements|done].
  - rewrite decide_False; [done|]. intros [H1 H2]. apply Hn.
    split; [by apply elem_of_elements|done].
Qed.

Lemma dequeued_after_broadcast m rest st :
  dequeued (after_broadcast m rest st) = dequeued st ++ [m].
Proof.
  unfold after_broadcast. rewrite dequeued_emits. cbn [omap list_omap get_of].
  by rewrite deliveries_get.
Qed.

Lemma enqueued_after_broadcast m rest st :
  enqueued (after_broadcast m rest st) = enqueued st.
Proof.
  unfold after_broadcast. rewrite enqueued_emits. cbn [omap list_omap put_of].
  rewrite deliveries_put. apply app_nil_r.
Qed.

(** ** What one label does *)

Lemma exec_Connect c st st' :
  exec (Connect c) st = Some st' →
  (c ∉ known st) ∧
  st' = (if decide (c ∈ closed st)
         then emits [EvAdd c; EvRemove c]
                (set_clients (({[c]} ∪ connected_clients st) ∖ {[c]})
                   (set_known ({[c]} ∪ known st) st))
         else set_waiting ({[c]} ∪ waiting st)
                (emits [EvAdd c; EvRecv c Welcome]
                   (set_clients ({[c]} ∪ connected_clients st)
                      (set_known ({[c]} ∪ known st) st)))).
Proof.
  cbn [exec]. destruct (decide (c ∈ known st)) as [|Hk]; [done|].
  intros [= <-]. split; [done|]. rewrite handler_connect_eq.
  cbn [closed set_known]. by destruct (decide (c ∈ closed st)).
Qed.

Lemma exec_Disconnect c st st' :
  exec (Disconnect c) st = Some st' →
  c ∈ waiting st ∧ c ∈ closed st ∧
  st' = (if decide (c ∈ connected_clients st)
         then emits [EvRemove c]
                (set_clients (connected_clients st ∖ {[c]})
                   (set_waiting (waiting st ∖ {[c]}) st))
         else set_waiting (waiting st ∖ {[c]}) st).
Proof.
  cbn [exec]. destruct (decide (c ∈ waiting st ∧ c ∈ closed st)) as [[Hw Hc]|]; [|done].
  intros [= <-]. split; [done|]. split; [done|]. rewrite handler_disconnect_eq.
  by destruct (decide (c ∈ connected_clients st)).
Qed.

Lemma exec_Enqueue m st st' :
  exec (Enqueue m) st = Some st' →
  st' = emits [EvPut m]
          (set_queue {| maxsize := maxsize (message_queue st);
                        items := items (message_queue st) ++ [m] |} st).
Proof.
  cbn [exec]. unfold queue_message, Queue_put.
  destruct (decide _); [done|]. by intros [= <-].
Qed.

Lemma exec_Broadcast st st' :
  exec Broadcast st = Some st' →
  ∃ m rest, items (message_queue st) = m :: rest ∧ st' = after_broadcast m rest st.
Proof.
  cbn [exec]. unfold Queue_empty.
  destruct (items (message_queue st)) as [|m rest] eqn:Hq; [done|].
  intros [= <-]. exists m, rest. split; [done|].
  rewrite (broadcast_one_eq st m rest Hq). by destruct (decide (all_open st)).
Qed.

(** ** Invariants of the running server *)

Lemma inv_init : inv (@init message).
Proof.
  split; cbn; done.
Qed.

Lemma head_app_nonempty {A} (l k : list A) : l ≠ [] → head (l ++ k) = head l.
Proof. by destruct l. Qed.

Lemma inv_exec l st st' : inv st → exec l st = Some st' → inv st'.
Proof.
  intros [Hmax Hwait Hknown Hcount Hfifo Hfresh Hfirst Hmember Horder] Hex.
  destruct l as [c|c|c|m|].
  - (* Connect *)
    apply exec_Connect in Hex as [Hk ->].
    assert (c ∉ connected_clients st) as Hcc by set_solver.
    pose proof (Hfresh c Hk) as Hin.
    destruct (decide (c ∈ closed st)) as [Hc|Hc].
    + assert (({[c]} ∪ connected_clients st) ∖ {[c]} = connected_clients st) as ->
        by set_solver.
      split; cbn [maxsize message_queue emits set_clients set_known waiting
                  connected_clients known]; try done.
      * set_solver.
      * rewrite adds_emits, removes_emits. unfold client_count in *. cbn.
        unfold adds, removes in *. cbn. lia.
      * by rewrite enqueued_emits, dequeued_emits, !app_nil_r.
      * intros c' Hc'. rewrite inbox_emits. cbn. rewrite app_nil_r.
        apply Hfresh. set_solver.
      * intros c' w. rewrite inbox_emits. cbn. rewrite app_nil_r. apply Hfirst.
      * intros c' Hc'. rewrite inbox_emits. cbn. rewrite app_nil_r. by apply Hmember.
      * intros c'. rewrite inbox_emits, dequeued_emits. cbn. rewrite !app_nil_r.
        apply Horder.
    + split; cbn [maxsize message_queue emits set_clients set_known set_waiting
                  waiting connected_clients known]; try done.
      * set_solver.
      * set_solver.
      * unfold client_count, adds, removes in *. cbn.
        rewrite !List.filter_app, !length_app. cbn.
        rewrite size_union by set_solver. rewrite size_singleton. lia.
      * unfold enqueued, dequeued in *. cbn. rewrite !omap_app. cbn.
        by rewrite !app_nil_r.
      * intros c' Hc'. unfold inbox in *. cbn. rewrite omap_app. cbn.
        rewrite decide_False by set_solver. rewrite app_nil_r.
        apply Hfresh. set_solver.
      * intros c' w. unfold inbox in *. cbn. rewrite omap_app. cbn.
        destruct (decide (c = c')) as [->|Hne].
        -- rewrite Hin. cbn. congruence.
        -- rewrite app_nil_r. apply Hfirst.
      * intros c' Hc'. unfold inbox in *. cbn. rewrite omap_app. cbn.
        destruct (decide (c = c')) as [->|Hne].
        -- rewrite Hin. done.
        -- rewrite app_nil_r. apply Hmember. set_solver.
      * intros c'. unfold inbox, dequeued, samples in *. cbn. rewrite !omap_app. cbn.
        destruct (decide (c = c')) as [->|Hne]; cbn; rewrite !app_nil_r; apply Horder.
  - (* PeerClose *)
    cbn in Hex. injection Hex as <-. by split.
  - (* Disconnect *)
    apply exec_Disconnect in Hex as (Hw & Hc & ->).
    rewrite decide_True by set_solver.
    split; cbn [maxsize message_queue emits set_clients set_known set_waiting
                waiting connected_clients known]; try done.
    + set_solver.
    + set_solver.
    + unfold client_count, adds, removes in *. cbn.
      rewrite !List.filter_app, !length_app. cbn.
      assert (c ∈ connected_clients st) as Hcc by set_solver.
      pose proof (size_union_alt {[c]} (connected_clients st)) as Hs.
      assert ({[c]} ∪ connected_clients st = connected_clients st) as Heq by set_solver.
      rewrite Heq in Hs.
      rewrite size_singleton in Hs. lia.
    + unfold enqueued, dequeued in *. cbn. rewrite !omap_app. cbn.
      by rewrite !app_nil_r.
    + intros c' Hc'. unfold inbox in *. cbn. rewrite omap_app. cbn.
      rewrite app_nil_r. by apply Hfresh.
    + intros c' w. unfold inbox in *. cbn. rewrite omap_app. cbn.
      rewrite app_nil_r. apply Hfirst.
    + intros c' Hc'. unfold inbox in *. cbn. rewrite omap_app. cbn.
      rewrite app_nil_r. apply Hmember. set_solver.
    + intros c'. unfold inbox, dequeued, samples in *. cbn. rewrite !omap_app. cbn.
      rewrite !app_nil_r. apply Horder.
  - (* Enqueue *)
    apply exec_Enqueue in Hex as ->.
    split; cbn [maxsize message_queue emits set_queue items
                waiting connected_clients known]; try done.
    + unfold client_count, adds, removes in *. cbn.
      rewrite !List.filter_app, !length_app. cbn. lia.
    + unfold enqueued, dequeued in *. cbn. rewrite !omap_app. cbn.
      rewrite Hfifo. by rewrite app_nil_r, app_assoc.
    + intros c' Hc'. unfold inbox in *. cbn. rewrite omap_app. cbn.
      rewrite app_nil_r. by apply Hfresh.
    + intros c' w. unfold inbox in *. cbn. rewrite omap_app. cbn.
      rewrite app_nil_r. apply Hfirst.
    + intros c' Hc'. unfold inbox in *. cbn. rewrite omap_app. cbn.
      rewrite app_nil_r. by apply Hmember.
    + intros c'. unfold inbox, dequeued, samples in *. cbn. rewrite !omap_app. cbn.
      rewrite !app_nil_r. apply Horder.
  - (* Broadcast *)
    apply exec_Broadcast in Hex as (m & rest & Hq & ->).
    split.
    + done.
    + done.
    + done.
    + unfold after_broadcast. rewrite adds_emits, removes_emits.
      cbn [List.filter is_add is_remove]. rewrite deliveries_add, deliveries_remove. cbn.
      unfold client_count, adds, removes in *. cbn. lia.
    + rewrite enqueued_after_broadcast, dequeued_after_broadcast.
      rewrite Hfifo, Hq. cbn. by rewrite <- app_assoc.
    + intros c Hc. rewrite inbox_after_broadcast.
      rewrite decide_False; [rewrite app_nil_r; by apply Hfresh|].
      intros [H1 _]. apply Hc. cbn. set_solver.
    + intros c w. rewrite inbox_after_broadcast.
      destruct (decide (c ∈ connected_clients st ∧ open_in st c)) as [[H1 H2]|Hn].
      * rewrite head_app_nonempty by (by apply Hmember). apply Hfirst.
      * rewrite app_nil_r. apply Hfirst.
    + intros c Hc. rewrite inbox_after_broadcast.
      intros Happ. apply app_eq_nil in Happ as [Happ _].
      by apply (Hmember c).
    + intros c. rewrite inbox_after_broadcast, dequeued_after_broadcast.
      unfold samples. rewrite omap_app.
      apply sublist_app; [apply Horder|].
      destruct (decide _); cbn; [done|]. apply sublist_nil_l.
Qed.

Lemma inv_run ls : ∀ st st', inv st → run ls st = Some st' → inv st'.
Proof.
  induction ls as [|l ls IH]; intros st st' Hinv Hrun; cbn in Hrun.
  - by injection Hrun as <-.
  - destruct (exec l st) as [st1|] eqn:Hex; [|done].
    eapply IH; [|done]. by eapply inv_exec.
Qed.

Lemma reachable_inv st : reachable st → inv st.
Proof. intros [ls Hrun]. eapply inv_run; [apply inv_init|done]. Qed.

(** ** The drain loop *)

Lemma all_open_after_broadcast m rest st :
  all_open (after_broadcast m rest st) ↔ all_open st.
Proof. done. Qed.

Lemma drain_empty fuel st :
  items (message_queue st) = [] → drain (S fuel) st = Some (Ok tt st).
Proof. intros Hq. cbn [drain]. unfold Queue_empty. by rewrite Hq. Qed.

Lemma drain_cons fuel st m rest :
  items (message_queue st) = m :: rest →
  drain (S fuel) st
  = if decide (all_open st)
    then drain fuel (after_broadcast m rest st)
    else Some (Raise ConnectionClosed (after_broadcast m rest st)).
Proof.
  intros Hq. cbn [drain]. unfold Queue_empty. rewrite Hq.
  rewrite (broadcast_one_eq st m rest Hq). by destruct (decide (all_open st)).
Qed.

(** A drain that is cut short by an exception has taken a prefix of the
    queue, the last of it being the sample in flight, and has left the
    rest where it was. *)
Lemma drain_raise fuel : ∀ st e st',
  drain fuel st = Some (Raise e st') →
  ∃ sent inflight rest,
    items (message_queue st) = sent ++ inflight :: rest ∧
    items (message_queue st') = rest ∧
    dequeued st' = dequeued st ++ sent ++ [inflight] ∧
    enqueued st' = enqueued st.
Proof.
  induction fuel as [|fuel IH]; intros st e st' Hd; [done|].
  destruct (items (message_queue st)) as [|m q] eqn:Hq.
  - by rewrite drain_empty in Hd.
  - rewrite (drain_cons _ _ _ _ Hq) in Hd.
    destruct (decide (all_open st)) as [Ho|Ho].
    + apply IH in Hd as (sent & inflight & rest & H1 & H2 & H3 & H4).
      exists (m :: sent), inflight, rest.
      cbn in H1. rewrite H1. split; [done|]. split; [done|].
      rewrite H3, H4, dequeued_after_broadcast, enqueued_after_broadcast.
      split; [|done]. by rewrite <- !app_assoc.
    + injection Hd as <- <-. exists [], m, q. split; [done|]. split; [done|].
      by rewrite dequeued_after_broadcast, enqueued_after_broadcast.
Qed.

(** With enough fuel the drain returns.  It is a run of [Broadcast]
    passes that takes the whole queue, or stops after the first sample
    whose fan-out raised. *)
Lemma drain_enough fuel : ∀ st,
  length (items (message_queue st)) < fuel →
  ∃ r taken rest,
    drain fuel st = Some r ∧
    items (message_queue st) = taken ++ rest ∧
    items (message_queue (state_of r)) = rest ∧
    run (replicate (length taken) Broadcast) st = Some (state_of r) ∧
    (all_open st → rest = [] ∧ r = Ok tt (state_of r)) ∧
    (¬ all_open st → length taken = 1 ∨ items (message_queue st) = []).
Proof.
  induction fuel as [|fuel IH]; intros st Hlen; [lia|].
  destruct (items (message_queue st)) as [|m q] eqn:Hq.
  - exists (Ok tt st), [], []. rewrite drain_empty by done. cbn.
    repeat split; try done. by right.
  - rewrite (drain_cons _ _ _ _ Hq).
    assert (exec Broadcast st = Some (after_broadcast m q st)) as Hex.
    { cbn [exec]. unfold Queue_empty. rewrite Hq.
      rewrite (broadcast_one_eq st m q Hq). by destruct (decide (all_open st)). }
    destruct (decide (all_open st)) as [Ho|Ho].
    + destruct (IH (after_broadcast m q st)) as (r & taken & rest & H1 & H2 & H3 & H4 & H5 & H6).
      { cbn in *. lia. }
      exists r, (m :: taken), rest. cbn in H2. subst q. cbn [length replicate run].
      rewrite Hex. repeat split; try done.
      * by apply H5.
      * by apply H5.
    + exists (Raise ConnectionClosed (after_broadcast m q st)), [m], q.
      cbn [length replicate run state_of]. rewrite Hex.
      repeat split; try done. by left.
Qed.

Lemma tick_total st :
  ∃ st' taken rest,
    tick st = Some st' ∧
    items (message_queue st) = taken ++ rest ∧
    items (message_queue st') = rest ∧
    run (replicate (length taken) Broadcast) st = Some st' ∧
    (all_open st → rest = []) ∧
    (¬ all_open st → length taken = 1 ∨ items (message_queue st) = []).
Proof.
  destruct (drain_enough (S (length (items (message_queue st)))) st)
    as (r & taken & rest & H1 & H2 & H3 & H4 & H5 & H6); [lia|].
  exists (state_of r), taken, rest. unfold tick. rewrite H1.
  repeat split; try done. by apply H5.
Qed.

Lemma tick_failing st m rest :
  items (message_queue st) = m :: rest → ¬ all_open st →
  tick st = Some (after_broadcast m rest st).
Proof.
  intros Hq Ho. unfold tick. rewrite (drain_cons _ _ _ _ Hq).
  by rewrite decide_False.
Qed.

Lemma tick_idle st : items (message_queue st) = [] → tick st = Some st.
Proof. intros Hq. unfold tick. by rewrite drain_empty. Qed.

(** ** Runs *)

Lemma run_app ls1 : ∀ ls2 st st1 st2,
  run ls1 st = Some st1 → run ls2 st1 = Some st2 → run (ls1 ++ ls2) st = Some st2.
Proof.
  induction ls1 as [|l ls1 IH]; intros ls2 st st1 st2 H1 H2; cbn in *.
  - by injection H1 as ->.
  - destruct (exec l st) as [st0|]; [|done]. by eapply IH.
Qed.

Lemma reachable_run ls st st' : reachable st → run ls st = Some st' → reachable st'.
Proof. intros [ls0 H0] H. exists (ls0 ++ ls). by eapply run_app. Qed.

(** The broadcaster touches the queue and the history, and nothing else. *)
Lemma run_Broadcast_frame n : ∀ st st',
  run (replicate n Broadcast) st = Some st' →
  connected_clients st' = connected_clients st ∧ closed st' = closed st ∧
  waiting st' = waiting st ∧ known st' = known st ∧
  maxsize (message_queue st') = maxsize (message_queue st) ∧
  enqueued st' = enqueued st ∧
  dequeued st' ++ items (message_queue st') = dequeued st ++ items (message_queue st).
Proof.
  induction n as [|n IH]; intros st st' Hrun.
  - cbn in Hrun. by injection Hrun as <-.
  - cbn [replicate run] in Hrun. destruct (exec Broadcast st) as [st1|] eqn:Hex; [|done].
    apply exec_Broadcast in Hex as (m & rest & Hq & ->).
    apply IH in Hrun as (H1 & H2 & H3 & H4 & H5 & H6 & H7).
    rewrite H1, H2, H3, H4, H5, H6, H7, dequeued_after_broadcast,
      enqueued_after_broadcast, Hq. cbn. by rewrite <- app_assoc.
Qed.

Lemma exec_closed_mono l st st' : exec l st = Some st' → closed st ⊆ closed st'.
Proof.
  destruct l as [c|c|c|m|]; intros Hex.
  - apply exec_Connect in Hex as [_ ->]. by destruct (decide (c ∈ closed st)).
  - cbn in Hex. injection Hex as <-. cbn. set_solver.
  - apply exec_Disconnect in Hex as (_ & _ & ->).
    by destruct (decide (c ∈ connected_clients st)).
  - by apply exec_Enqueue in Hex as ->.
  - by apply exec_Broadcast in Hex as (m & rest & _ & ->).
Qed.

Lemma run_closed_mono ls : ∀ st st', run ls st = Some st' → closed st ⊆ closed st'.
Proof.
  induction ls as [|l ls IH]; intros st st' Hrun; cbn in Hrun.
  - by injection Hrun as <-.
  - destruct (exec l st) as [st1|] eqn:Hex; [|done].
    etrans; [by eapply exec_closed_mono|by apply IH].
Qed.

(** What one label adds to the dequeued samples and to the inbox of [c]:
    [c] gets a subsequence of the newly dequeued samples (and possibly its
    welcome), and exactly those samples while it stays connected. *)
Lemma exec_delta l st st' c :
  exec l st = Some st' →
  ∃ new got,
    dequeued st' = dequeued st ++ new ∧
    inbox c st' = inbox c st ++ got ∧
    samples got `sublist_of` new ∧
    (inv st → c ∈ connected_clients st → c ∉ closed st' →
     got = map Sample new ∧ c ∈ connected_clients st').
Proof.
  destruct l as [c'|c'|c'|m|]; intros Hex.
  - apply exec_Connect in Hex as [Hk ->].
    destruct (decide (c' ∈ closed st)) as [Hc|Hc].
    + exists [], []. rewrite dequeued_emits, inbox_emits. cbn.
      repeat split; try done. destruct H. set_solver.
    + exists [], (if decide (c' = c) then [Welcome] else []).
      unfold dequeued, inbox. cbn. rewrite !omap_app. cbn.
      split; [done|]. split; [by destruct (decide (c' = c))|].
      split; [by destruct (decide (c' = c))|].
      intros Hinv Hcc _. destruct Hinv.
      rewrite decide_False by set_solver. split; [done|set_solver].
  - cbn in Hex. injection Hex as <-. exists [], [].
    rewrite !app_nil_r. repeat split; try done.
  - apply exec_Disconnect in Hex as (Hw & Hc & ->).
    exists [], []. destruct (decide (c' ∈ connected_clients st)).
    + rewrite dequeued_emits, inbox_emits. cbn.
      repeat split; try done. set_solver.
    + rewrite !app_nil_r. repeat split; try done.
  - apply exec_Enqueue in Hex as ->. exists [], [].
    rewrite dequeued_emits, inbox_emits. cbn. repeat split; try done.
  - apply exec_Broadcast in Hex as (m & rest & Hq & ->).
    exists [m], (if decide (c ∈ connected_clients st ∧ open_in st c) then [Sample m] else []).
    rewrite dequeued_after_broadcast, inbox_after_broadcast.
    split; [done|]. split; [done|].
    split; [destruct (decide _); cbn; [done|apply sublist_nil_l]|].
    intros _ Hcc Ho. by rewrite decide_True.
Qed.

Lemma run_delta ls c : ∀ st st',
  run ls st = Some st' →
  ∃ new got,
    dequeued st' = dequeued st ++ new ∧
    inbox c st' = inbox c st ++ got ∧
    samples got `sublist_of` new ∧
    (inv st → c ∈ connected_clients st → c ∉ closed st' →
     got = map Sample new ∧ c ∈ connected_clients st').
Proof.
  induction ls as [|l ls IH]; intros st st' Hrun; cbn in Hrun.
  - injection Hrun as <-. exists [], []. rewrite !app_nil_r. by repeat split.
  - destruct (exec l st) as [st1|] eqn:Hex; [|done].
    destruct (exec_delta _ _ _ c Hex) as (new1 & got1 & Hd1 & Hi1 & Hs1 & Hx1).
    destruct (IH _ _ Hrun) as (new2 & got2 & Hd2 & Hi2 & Hs2 & Hx2).
    exists (new1 ++ new2), (got1 ++ got2).
    rewrite Hd2, Hd1, Hi2, Hi1, !app_assoc.
    split; [done|]. split; [done|].
    split; [unfold samples in *; rewrite omap_app; by apply sublist_app|].
    intros Hinv Hcc Hcl.
    assert (c ∉ closed st1) as Hcl1.
    { intros Hin. apply Hcl. by eapply run_closed_mono. }
    destruct (Hx1 Hinv Hcc Hcl1) as [-> Hcc1].
    destruct (Hx2 (inv_exec _ _ _ Hinv Hex) Hcc1 Hcl) as [-> Hcc2].
    by rewrite map_app.
Qed.

(** Repeated ticks empty the queue, a sample or more a tick. *)
Lemma broadcast_messages_drains n : ∀ st,
  length (items (message_queue st)) ≤ n →
  ∃ st', broadcast_messages n st = Some st' ∧
         items (message_queue st') = [] ∧
         dequeued st' = dequeued st ++ items (message_queue st) ∧
         connected_clients st' = connected_clients st.
Proof.
  induction n as [|n IH]; intros st Hlen.
  - exists st. destruct (items (message_queue st)); [|cbn in Hlen; lia].
    by rewrite app_nil_r.
  - cbn [broadcast_messages].
    destruct (tick_total st) as (st1 & taken & rest & Ht & Hq & Hq1 & Hrun & Hopen & Hfail).
    rewrite Ht.
    apply run_Broadcast_frame in Hrun as (Hcc & _ & _ & _ & _ & _ & Hdq).
    assert (length rest ≤ n) as Hlen1.
    { rewrite Hq, length_app in Hlen.
      destruct (decide (all_open st)) as [Ho|Ho].
      - rewrite (Hopen Ho). cbn. lia.
      - destruct (Hfail Ho) as [H1|H0]; [lia|].
        rewrite H0 in Hq. symmetry in Hq. apply app_eq_nil in Hq as [_ ->]. cbn. lia. }
    destruct (IH st1) as (st' & Hb & He & Hd & Hc); [by rewrite Hq1|].
    exists st'. split; [done|]. split; [done|]. split; [|congruence].
    rewrite Hd, Hq1. rewrite Hq1 in Hdq. by rewrite Hdq.
Qed.

(** The ticks of the broadcaster are passes of its inner loop. *)
Lemma broadcast_messages_run n : ∀ st st',
  broadcast_messages n st = Some st' →
  ∃ k, run (replicate k Broadcast) st = Some st'.
Proof.
  induction n as [|n IH]; intros st st' Hb; cbn [broadcast_messages] in Hb.
  - injection Hb as <-. by exists 0.
  - destruct (tick_total st) as (st1 & taken & rest & Ht & _ & _ & Hrun & _).
    rewrite Ht in Hb. destruct (IH _ _ Hb) as [k Hk].
    exists (length taken + k). rewrite replicate_add. by eapply run_app.
Qed.

Lemma broadcast_messages_total n : ∀ st, is_Some (broadcast_messages n st).
Proof.
  induction n as [|n IH]; intros st; cbn [broadcast_messages]; [done|].
  destruct (tick_total st) as (st1 & ? & ? & -> & _). apply IH.
Qed.

(** ** The broadcaster and a failing client *)

(** C1 (amended).  During a broadcast pass in which the send to a registered
    client [c0] fails, the broadcaster leaves the registry as it is ([c0]
    stays registered: only its own handler removes it), every other client
    of the pass whose connection is open still receives the current sample
    [m], the failing client receives nothing, the samples behind [m] stay
    queued, and the loop goes on for any number of further ticks. *)
Theorem broadcast_failure_spares_the_others st m rest c0 :
  items (message_queue st) = m :: rest →
  c0 ∈ connected_clients st → c0 ∈ closed st →
  ∃ st', tick st = Some st' ∧
    connected_clients st' = connected_clients st ∧
    (∀ c, c ∈ connected_clients st → c ∉ closed st →
          inbox c st' = inbox c st ++ [Sample m]) ∧
    (∀ c, c ∈ closed st → inbox c st' = inbox c st) ∧
    items (message_queue st') = rest ∧
    (∀ n, is_Some (broadcast_messages n st')).
Proof.
  intros Hq Hc0 Hcl.
  assert (¬ all_open st) as Hno.
  { intros Ho. unfold all_open in Ho. rewrite Forall_forall in Ho.
    apply (Ho c0); [by apply elem_of_elements|done]. }
  exists (after_broadcast m rest st). split; [by apply tick_failing|].
  split; [done|]. split; [|split; [|split]].
  - intros c Hc Ho. rewrite inbox_after_broadcast. by rewrite decide_True.
  - intros c Hc. rewrite inbox_after_broadcast.
    rewrite decide_False; [apply app_nil_r|]. intros [_ Ho]. by apply Ho.
  - done.
  - intros n. apply broadcast_messages_total.
Qed.

(** ** The handshake *)

(** C2 (amended).  The handler registers the handle first and sends the
    welcome message next, with nothing in between; in every reachable state
    the first message a client has received, if any, is the
    connected-status message and not a sample. *)
Theorem welcome_follows_registration st c :
  reachable st →
  (c ∉ closed st →
   trace (state_of (handler_connect c st)) = trace st ++ [EvAdd c; EvRecv c Welcome]) ∧
  (∀ w, head (inbox c st) = Some w → w = Welcome).
Proof.
  intros Hr. split.
  - intros Hc. rewrite handler_connect_eq. by rewrite decide_False.
  - apply reachable_inv in Hr. apply (inv_first st Hr).
Qed.

(** ** Deregistration *)

(** C3 (amended).  [set.remove] is not idempotent: on an absent handle it
    raises [KeyError] and leaves the state as it is; on a registered handle
    it removes exactly that one.  The handler is the only path that removes,
    it does so once and for a handle it has added, so in a reachable state
    its removal succeeds, and the only exception [handler] can leave with on
    connecting is the failed send. *)
Theorem remove_raises_when_absent st c :
  reachable st →
  (c ∉ connected_clients st → set_remove c st = Raise KeyError st) ∧
  (c ∈ connected_clients st →
   set_remove c st
   = Ok tt (emit (EvRemove c) (set_clients (connected_clients st ∖ {[c]}) st))) ∧
  (c ∈ waiting st →
   ∃ st', handler_disconnect c st = Ok tt st' ∧
          connected_clients st' = connected_clients st ∖ {[c]} ∧
          c ∉ waiting st') ∧
  (∀ e st', handler_connect c st = Raise e st' → e = ConnectionClosed).
Proof.
  intros Hr. apply reachable_inv in Hr.
  split; [|split; [|split]].
  - intros Hc. unfold set_remove, bind, read. by rewrite decide_False.
  - intros Hc. unfold set_remove, bind, read. by rewrite decide_True.
  - intros Hw. rewrite handler_disconnect_eq.
    rewrite decide_True by (by apply (inv_wait st Hr)).
    eexists. split; [done|]. cbn. split; [done|set_solver].
  - intros e st'. rewrite handler_connect_eq.
    destruct (decide (c ∈ closed st)); [|done]. by intros [= <- _].
Qed.

(** ** The queue *)

(** C4.  [queue_message] on the server's queue always returns, whatever the
    number of samples already queued, and has put the sample at the tail. *)
Theorem queue_message_appends st m :
  reachable st →
  ∃ st', queue_message m st = Some st' ∧
         items (message_queue st') = items (message_queue st) ++ [m] ∧
         enqueued st' = enqueued st ++ [m] ∧
         exec (Enqueue m) st = Some st'.
Proof.
  intros Hr. apply reachable_inv in Hr.
  unfold exec, queue_message, Queue_put.
  rewrite decide_False by (rewrite (inv_max st Hr); lia).
  eexists. split; [done|]. split; [done|]. split; [|done].
  unfold emit. by rewrite enqueued_emits.
Qed.

(** C5 (amended).  Under any interleaving of the camera thread, the handlers
    and the broadcaster, every sample enqueued so far is either dequeued,
    once, or still queued, in enqueue order.  A tick takes samples from the
    head in FIFO order: all of them, leaving the queue empty, when no
    registered client has a closed connection; otherwise it takes exactly
    the head of a non-empty queue, the sample whose fan-out raised, and
    leaves the rest queued. *)
Theorem drain_takes_a_prefix st :
  reachable st →
  enqueued st = dequeued st ++ items (message_queue st) ∧
  ∃ st' taken rest,
    tick st = Some st' ∧
    items (message_queue st) = taken ++ rest ∧
    items (message_queue st') = rest ∧
    dequeued st' = dequeued st ++ taken ∧
    enqueued st' = enqueued st ∧
    (all_open st → rest = []) ∧
    (¬ all_open st → taken = take 1 (items (message_queue st))).
Proof.
  intros Hr. apply reachable_inv in Hr. split; [apply (inv_fifo st Hr)|].
  destruct (tick_total st) as (st' & taken & rest & Ht & Hq & Hq' & Hrun & Ho & Hf).
  exists st', taken, rest.
  apply run_Broadcast_frame in Hrun as (_ & _ & _ & _ & _ & He & Hd).
  repeat split; try done.
  - rewrite Hq', Hq, app_assoc in Hd. by apply app_inv_tail in Hd.
  - intros Hno. rewrite Hq. destruct (Hf Hno) as [H1|H0].
    + destruct taken as [|m [|m' taken]]; cbn in H1; try lia. done.
    + rewrite H0 in Hq. symmetry in Hq. by apply app_eq_nil in Hq as [-> ->].
Qed.

(** ** Order of delivery *)

(** C6.  The samples a client has received are a subsequence of the
    enqueued ones, so two samples arrive in the order they were enqueued.
    For a client that is registered at the start of a run and whose
    connection stays open: once the broadcaster has then ticked at least as
    often as samples are left in the queue, the queue is empty, the client's
    first message is its welcome, and after what it had at the start it has
    received exactly the samples that were queued at the start and those
    enqueued during the run, one message each, in enqueue order. *)
Theorem per_client_fifo st ls st1 c :
  reachable st → run ls st = Some st1 →
  samples (inbox c st1) `sublist_of` enqueued st1 ∧
  (c ∈ connected_clients st → c ∉ closed st1 →
   ∀ n, length (items (message_queue st1)) ≤ n →
   ∃ st', broadcast_messages n st1 = Some st' ∧
          items (message_queue st') = [] ∧
          head (inbox c st') = Some Welcome ∧
          ∀ ms, enqueued st1 = enqueued st ++ ms →
                inbox c st'
                = inbox c st ++ map Sample (items (message_queue st) ++ ms)).
Proof.
  intros Hr Hrun.
  pose proof (reachable_inv _ (reachable_run _ _ _ Hr Hrun)) as Hinv1.
  pose proof (reachable_inv _ Hr) as Hinv.
  split.
  - etrans; [apply (inv_order st1 Hinv1)|].
    rewrite (inv_fifo st1 Hinv1). apply sublist_inserts_r. done.
  - intros Hcc Hcl n Hn.
    destruct (broadcast_messages_drains n st1 Hn) as (st' & Hb & Hq' & _ & _).
    destruct (broadcast_messages_run n st1 st' Hb) as [k Hk].
    pose proof (run_Broadcast_frame k _ _ Hk) as (_ & Hclosed & _ & _ & _ & Henq & _).
    pose proof (run_app _ _ _ _ _ Hrun Hk) as Hall.
    pose proof (reachable_inv _ (reachable_run _ _ _ Hr Hall)) as Hinv'.
    destruct (run_delta _ c st st' Hall) as (new & got & Hd & Hi & _ & Hx).
    destruct (Hx Hinv Hcc) as [-> Hcc']; [by rewrite Hclosed|].
    exists st'. split; [done|]. split; [done|]. split.
    + pose proof (inv_member st' Hinv' c Hcc') as Hne.
      pose proof (inv_first st' Hinv' c) as Hf.
      destruct (inbox c st') as [|w l]; [done|]. cbn. f_equal. by apply Hf.
    + intros ms Hms. rewrite Hi. do 2 f_equal.
      pose proof (inv_fifo st Hinv) as H1. pose proof (inv_fifo st' Hinv') as H2.
      rewrite Hq', app_nil_r, Henq, Hms, H1, Hd, <- app_assoc in H2.
      by apply app_inv_head in H2.
Qed.

(** C7.  A client that connects in state [st] never receives a sample that
    was dequeued before: whatever happens afterwards, the samples in its
    inbox are a subsequence of the samples dequeued after [st]. *)
Theorem no_replay st st1 ls st' c :
  reachable st → exec (Connect c) st = Some st1 → run ls st1 = Some st' →
  ∃ new, dequeued st' = dequeued st ++ new ∧
         samples (inbox c st') `sublist_of` new.
Proof.
  intros Hr Hex Hrun.
  assert (run (Connect c :: ls) st = Some st') as Hrun'.
  { cbn [run]. by rewrite Hex. }
  destruct (run_delta _ c st st' Hrun') as (new & got & Hd & Hi & Hs & _).
  exists new. split; [done|].
  apply exec_Connect in Hex as [Hk _].
  rewrite Hi, (inv_fresh st (reachable_inv _ Hr) c Hk). done.
Qed.

(** ** The client count *)

(** C8.  The number [start_camera] displays is the number of additions to
    the registry minus the number of removals, and there are never more
    removals than additions; a connect of a live connection adds exactly one
    handle, a disconnect removes exactly one, and a tick of the broadcaster
    changes nothing. *)
Theorem client_count_balance st :
  reachable st →
  removes st ≤ adds st ∧
  client_count st = adds st - removes st ∧
  (∀ c st', exec (Connect c) st = Some st' → c ∉ closed st →
            client_count st' = S (client_count st) ∧ c ∈ connected_clients st') ∧
  (∀ c st', exec (Disconnect c) st = Some st' →
            S (client_count st') = client_count st ∧ c ∉ connected_clients st') ∧
  (∀ st', tick st = Some st' → client_count st' = client_count st).
Proof.
  intros Hr. apply reachable_inv in Hr.
  pose proof (inv_count st Hr) as Hcount.
  split; [lia|]. split; [lia|]. split; [|split].
  - intros c st' Hex Hc. apply exec_Connect in Hex as [Hk ->].
    rewrite decide_False by done. unfold client_count. cbn.
    assert (c ∉ connected_clients st) by (pose proof (inv_known st Hr); set_solver).
    rewrite size_union by set_solver. rewrite size_singleton.
    split; [done|set_solver].
  - intros c st' Hex. apply exec_Disconnect in Hex as (Hw & Hc & ->).
    assert (c ∈ connected_clients st) as Hcc by (by apply (inv_wait st Hr)).
    rewrite decide_True by done. unfold client_count. cbn.
    pose proof (size_union_alt {[c]} (connected_clients st)) as Hs.
    assert ({[c]} ∪ connected_clients st = connected_clients st) as Heq by set_solver.
    rewrite Heq, size_singleton in Hs. split; [lia|set_solver].
  - intros st' Ht.
    destruct (tick_total st) as (st1 & taken & rest & Ht1 & _ & _ & Hrun & _).
    rewrite Ht in Ht1. injection Ht1 as <-.
    apply run_Broadcast_frame in Hrun as (Hcc & _). unfold client_count. by rewrite Hcc.
Qed.

(** ** An aborted tick *)

(** C10.  When the drain of a tick is cut short by an exception, the tick
    ends in the state the exception left; the samples behind the one in
    flight are still queued, in order, and the following ticks dequeue all
    of them. *)
Theorem aborted_tick_keeps_the_queue st e st' :
  drain (S (length (items (message_queue st)))) st = Some (Raise e st') →
  tick st = Some st' ∧
  ∃ sent inflight rest,
    items (message_queue st) = sent ++ inflight :: rest ∧
    items (message_queue st') = rest ∧
    dequeued st' = dequeued st ++ sent ++ [inflight] ∧
    ∀ n, length rest ≤ n →
         ∃ st'', broadcast_messages n st' = Some st'' ∧
                 items (message_queue st'') = [] ∧
                 dequeued st'' = dequeued st' ++ rest.
Proof.
  intros Hd. split; [unfold tick; by rewrite Hd|].
  destruct (drain_raise _ _ _ _ Hd) as (sent & inflight & rest & H1 & H2 & H3 & _).
  exists sent, inflight, rest. repeat split; try done.
  intros n Hn. destruct (broadcast_messages_drains n st') as (st'' & Hb & Hq & Hdq & _).
  { by rewrite H2. }
  exists st''. rewrite Hdq, H2. done.
Qed.

End ServerFacts.

(** ** The arm-data extractor *)

Lemma extract_arm_reports r l s w ls lw :
  Pose.pose_world_landmarks r = Some l → l !! s = Some ls → l !! w = Some lw →
  ∃ a, Pose.extract_arm l s w = inr a ∧ Pose.reports_arm r s w a.
Proof.
  intros Hr Hs Hw. unfold Pose.extract_arm, Pose.index. rewrite Hs, Hw.
  unfold Pose.visible, Pose.reports_arm.
  destruct (PrimFloat.ltb 0.5 (Pose.visibility ls)) eqn:Hvs;
    [destruct (PrimFloat.ltb 0.5 (Pose.visibility lw)) eqn:Hvw|].
  - eexists. split; [done|]. split.
    + split; [|done]. intros _. by exists l, ls, lw.
    + intros v [= <-]. by exists l, ls, lw.
  - exists None. split; [done|]. split; [|done]. split; [by intros []|].
    intros (l' & ls' & lw' & H1 & H2 & H3 & H4 & H5). congruence.
  - exists None. split; [done|]. split; [|done]. split; [by intros []|].
    intros (l' & ls' & lw' & H1 & H2 & H3 & H4 & H5). congruence.
Qed.

(** C9.  For a pose result with MediaPipe's 33 world landmarks (or none),
    [extract_arm_data] returns a record that carries the timestamp, whose
    ['left_arm'] is filled exactly when world landmarks are present and the
    visibilities of the left shoulder and the left wrist both exceed 0.5, and
    then holds the x, y, z and visibility of these two landmarks; likewise
    ['right_arm'] with the right shoulder and wrist. *)
Theorem extract_arm_data_reports now r :
  Pose.well_formed r →
  ∃ d, Pose.extract_arm_data now r = inr d ∧
       Pose.timestamp d = now ∧
       Pose.reports_arm r Pose.LEFT_SHOULDER Pose.LEFT_WRIST (Pose.left_arm d) ∧
       Pose.reports_arm r Pose.RIGHT_SHOULDER Pose.RIGHT_WRIST (Pose.right_arm d).
Proof.
  unfold Pose.well_formed, Pose.extract_arm_data.
  destruct (Pose.pose_world_landmarks r) as [l|] eqn:Hr; intros Hwf.
  - assert (∀ i, i < Pose.NUM_LANDMARKS → is_Some (l !! i)) as Hl.
    { intros i Hi. apply lookup_lt_is_Some. by rewrite Hwf. }
    destruct (Hl Pose.LEFT_SHOULDER) as [ls Hls]; [unfold Pose.LEFT_SHOULDER, Pose.NUM_LANDMARKS; lia|].
    destruct (Hl Pose.LEFT_WRIST) as [lw Hlw]; [unfold Pose.LEFT_WRIST, Pose.NUM_LANDMARKS; lia|].
    destruct (Hl Pose.RIGHT_SHOULDER) as [rs Hrs]; [unfold Pose.RIGHT_SHOULDER, Pose.NUM_LANDMARKS; lia|].
    destruct (Hl Pose.RIGHT_WRIST) as [rw Hrw]; [unfold Pose.RIGHT_WRIST, Pose.NUM_LANDMARKS; lia|].
    destruct (extract_arm_reports r l _ _ _ _ Hr Hls Hlw) as (a & -> & Ha).
    destruct (extract_arm_reports r l _ _ _ _ Hr Hrs Hrw) as (b & -> & Hb).
    eexists. split; [done|]. by cbn.
  - eexists. split; [done|]. cbn. split; [done|].
    unfold Pose.reports_arm. rewrite Hr.
    split; (split; [split; [by intros []|by intros (? & ? & ? & ? & _)]|done]).
Qed.

(** ** Concrete runs *)

Ltac by_computing :=
  match goal with |- ?P => refine (bool_decide_unpack P _); vm_compute; exact I end.

(** C1 as stated fails: client 1 is registered and its connection is
    closed; the tick that fails on it leaves it in the registry. *)
Lemma failed_handle_stays_registered :
  ¬ (∀ (st st' : state nat) c,
       reachable st → items (message_queue st) ≠ [] →
       c ∈ connected_clients st → c ∈ closed st →
       tick st = Some st' → c ∉ connected_clients st').
Proof.
  intros H.
  pose (ls := [Connect 1; Connect 2; PeerClose 1; Enqueue 7; Enqueue 8] : list (label nat)).
  apply (H (state_after ls) (default init (tick (state_after ls))) 1).
  - exists ls. vm_compute. reflexivity.
  - vm_compute. discriminate.
  - by_computing.
  - by_computing.
  - vm_compute. reflexivity.
  - by_computing.
Qed.

Lemma broadcast_failure_witness :
  ∃ st', tick (@state_after nat [Connect 1; Connect 2; PeerClose 1; Enqueue 7; Enqueue 8])
         = Some st' ∧
         1 ∈ connected_clients st' ∧
         inbox 2 st' = [Welcome; Sample 7] ∧
         items (message_queue st') = [8].
Proof.
  pose (ls := [Connect 1; Connect 2; PeerClose 1; Enqueue 7; Enqueue 8] : list (label nat)).
  destruct (broadcast_failure_spares_the_others (state_after ls) 7 [8] 1)
    as (st' & Ht & Hcc & Hopen & _ & Hq & _).
  - vm_compute. reflexivity.
  - by_computing.
  - by_computing.
  - exists st'. split; [exact Ht|]. split; [|split; [|exact Hq]].
    + rewrite Hcc. by_computing.
    + rewrite (Hopen 2); [vm_compute; reflexivity|by_computing|by_computing].
Defined.

(** C2 as stated fails: in the history of a connect, the welcome message
    does not come before the registration. *)
Lemma registration_precedes_welcome :
  ¬ (∃ tr1 tr2 tr3,
       trace (state_of (handler_connect 1 (@init nat)))
       = tr1 ++ EvRecv 1 Welcome :: tr2 ++ EvAdd 1 :: tr3).
Proof.
  intros (tr1 & tr2 & tr3 & H).
  assert (trace (state_of (handler_connect 1 (@init nat)))
          = [EvAdd 1; EvRecv 1 Welcome]) as Htr by (vm_compute; reflexivity).
  rewrite Htr in H.
  destruct tr1 as [|e1 [|e2 [|e3 tr1]]]; cbn in H; try discriminate.
  injection H as _ H. destruct tr2; discriminate.
Qed.

Lemma welcome_follows_registration_witness :
  trace (state_of (handler_connect 2 (@state_after nat [Connect 1; Enqueue 7; Broadcast])))
  = trace (@state_after nat [Connect 1; Enqueue 7; Broadcast])
    ++ [EvAdd 2; EvRecv 2 (@Welcome nat)]
  ∧ head (inbox 1 (@state_after nat [Connect 1; Enqueue 7; Broadcast])) = Some (@Welcome nat).
Proof.
  pose (ls := [Connect 1; Enqueue 7; Broadcast] : list (label nat)).
  assert (reachable (state_after ls)) as Hr by (exists ls; vm_compute; reflexivity).
  split.
  - apply (proj1 (welcome_follows_registration (state_after ls) 2 Hr)). by_computing.
  - vm_compute. reflexivity.
Defined.

(** C3 as stated fails: removing a handle that is absent raises. *)
Lemma remove_is_not_idempotent :
  ¬ (∀ (st : state nat) c,
       c ∉ connected_clients st →
       ∃ st', set_remove c st = Ok tt st' ∧ connected_clients st' = connected_clients st).
Proof.
  intros H. destruct (H (@init nat) 1) as (st' & Hrm & _); [by_computing|].
  vm_compute in Hrm. discriminate.
Qed.

Lemma remove_raises_when_absent_witness :
  set_remove 2 (@state_after nat [Connect 1; PeerClose 1])
  = Raise KeyError (@state_after nat [Connect 1; PeerClose 1])
  ∧ ∃ st', handler_disconnect 1 (@state_after nat [Connect 1; PeerClose 1]) = Ok tt st'
           ∧ 1 ∉ connected_clients st'.
Proof.
  pose (ls := [Connect 1; PeerClose 1] : list (label nat)).
  assert (reachable (state_after ls)) as Hr by (exists ls; vm_compute; reflexivity).
  destruct (remove_raises_when_absent (state_after ls) 2 Hr) as (Habs & _).
  destruct (remove_raises_when_absent (state_after ls) 1 Hr) as (_ & _ & Hdis & _).
  split.
  - apply Habs. by_computing.
  - destruct Hdis as (st' & Hd & Hcc & _); [by_computing|].
    exists st'. split; [exact Hd|]. rewrite Hcc. by_computing.
Defined.

Lemma queue_message_appends_witness :
  ∃ st', queue_message 9 (@state_after nat [Enqueue 7; Enqueue 8]) = Some st'
         ∧ items (message_queue st') = [7; 8; 9].
Proof.
  pose (ls := [Enqueue 7; Enqueue 8] : list (label nat)).
  destruct (queue_message_appends (state_after ls) 9) as (st' & Hq & Hi & _).
  - exists ls. vm_compute. reflexivity.
  - exists st'. split; [exact Hq|]. rewrite Hi. vm_compute. reflexivity.
Defined.

(** C5 as stated fails: the drain of a tick that hits a failing send does
    not take all the queued samples. *)
Lemma drain_stops_at_a_failure :
  ¬ (∀ (st st' : state nat),
       reachable st → tick st = Some st' → items (message_queue st') = []).
Proof.
  intros H.
  pose (ls := [Connect 1; PeerClose 1; Enqueue 7; Enqueue 8] : list (label nat)).
  assert (items (message_queue (default init (tick (state_after ls)))) = []) as Habs.
  { apply (H (state_after ls)).
    - exists ls. vm_compute. reflexivity.
    - vm_compute. reflexivity. }
  vm_compute in Habs. discriminate.
Qed.

Lemma drain_takes_a_prefix_witness :
  enqueued (@state_after nat [Connect 1; Enqueue 7; Enqueue 8; Broadcast]) = [7; 8]
  ∧ ∃ st', tick (@state_after nat [Connect 1; Enqueue 7; Enqueue 8; Broadcast]) = Some st'
           ∧ items (message_queue st') = [] ∧ dequeued st' = [7; 8].
Proof.
  pose (ls := [Connect 1; Enqueue 7; Enqueue 8; Broadcast] : list (label nat)).
  destruct (drain_takes_a_prefix (state_after ls))
    as (Hfifo & st' & taken & rest & Ht & Hq & Hq' & Hd & _ & Hopen & _).
  - exists ls. vm_compute. reflexivity.
  - split; [vm_compute; reflexivity|].
    assert (rest = []) as -> by (apply Hopen; by_computing).
    rewrite app_nil_r in Hq. exists st'. split; [exact Ht|]. split; [exact Hq'|].
    rewrite Hd, <- Hq. vm_compute. reflexivity.
Defined.

Lemma per_client_fifo_witness :
  ∃ st', broadcast_messages 2
           (@state_after nat [Connect 1; Enqueue 7; Enqueue 8; Broadcast; Enqueue 9])
         = Some st'
         ∧ items (message_queue st') = []
         ∧ inbox 1 st' = [Welcome; Sample 7; Sample 8; Sample 9].
Proof.
  pose (ls0 := [Connect 1] : list (label nat)).
  pose (ls := [Enqueue 7; Enqueue 8; Broadcast; Enqueue 9] : list (label nat)).
  destruct (per_client_fifo (state_after ls0) ls (state_after (ls0 ++ ls)) 1)
    as (_ & Hexact).
  - exists ls0. vm_compute. reflexivity.
  - vm_compute. reflexivity.
  - destruct (Hexact ltac:(by_computing) ltac:(by_computing) 2)
      as (st' & Hb & Hq & _ & Hin); [vm_compute; lia|].
    exists st'. split; [exact Hb|]. split; [exact Hq|].
    rewrite (Hin [7; 8; 9]); vm_compute; reflexivity.
Defined.

Lemma no_replay_witness :
  ∃ new, dequeued (@state_after nat [Enqueue 7; Broadcast; Connect 1; Enqueue 8; Broadcast])
         = [7] ++ new
         ∧ samples (inbox 1 (@state_after nat [Enqueue 7; Broadcast; Connect 1; Enqueue 8;
                                          Broadcast])) `sublist_of` new.
Proof.
  pose (ls0 := [Enqueue 7; Broadcast] : list (label nat)).
  pose (ls := [Enqueue 8; Broadcast] : list (label nat)).
  destruct (no_replay (state_after ls0) (state_after (ls0 ++ [Connect 1])) ls
              (state_after (ls0 ++ Connect 1 :: ls)) 1) as (new & Hd & Hs).
  - exists ls0. vm_compute. reflexivity.
  - vm_compute. reflexivity.
  - vm_compute. reflexivity.
  - exists new. split; [exact Hd|exact Hs].
Defined.

Lemma client_count_balance_witness :
  client_count (@state_after nat [Connect 1; Connect 2; Connect 3; PeerClose 2;
                             Disconnect 2]) = 3 - 1.
Proof.
  pose (ls := [Connect 1; Connect 2; Connect 3; PeerClose 2; Disconnect 2]
              : list (label nat)).
  destruct (client_count_balance (state_after ls)) as (_ & Hc & _).
  - exists ls. vm_compute. reflexivity.
  - etrans; [exact Hc|vm_compute; reflexivity].
Defined.

Lemma aborted_tick_witness :
  ∃ st', tick (@state_after nat [Connect 1; PeerClose 1; Enqueue 7; Enqueue 8; Enqueue 9])
         = Some st'
         ∧ items (message_queue st') = [8; 9]
         ∧ ∃ st'', broadcast_messages 2 st' = Some st''
                   ∧ items (message_queue st'') = []
                   ∧ dequeued st'' = [7; 8; 9].
Proof.
  pose (ls := [Connect 1; PeerClose 1; Enqueue 7; Enqueue 8; Enqueue 9] : list (label nat)).
  pose (st := state_after ls).
  destruct (aborted_tick_keeps_the_queue st ConnectionClosed (default init (tick st)))
    as (Ht & sent & inflight & rest & Hq & Hq' & Hd & Hnext).
  - vm_compute. reflexivity.
  - exists (default init (tick st)). split; [exact Ht|].
    split; [vm_compute; reflexivity|].
    assert (rest = [8; 9]) as -> by (rewrite <- Hq'; vm_compute; reflexivity).
    destruct (Hnext 2) as (st'' & Hb & He & Hdq); [cbn; lia|].
    exists st''. split; [exact Hb|]. split; [exact He|].
    rewrite Hdq. vm_compute. reflexivity.
Defined.

Lemma extract_arm_data_reports_witness :
  ∃ d, Pose.extract_arm_data 100%float
         (Pose.PoseResult (Some (replicate 33 (Pose.Landmark 0 0 0 0.75%float)))) = inr d
       ∧ is_Some (Pose.left_arm d).
Proof.
  destruct (extract_arm_data_reports 100%float
              (Pose.PoseResult (Some (replicate 33 (Pose.Landmark 0 0 0 0.75%float)))))
    as (d & Hd & _ & [[_ Hl] _] & _).
  - vm_compute. reflexivity.
  - exists d. split; [exact Hd|]. apply Hl.
    eexists _, _, _. repeat split; vm_compute; reflexivity.
Defined.

(** ** Part 4: further properties of the server *)

Section ServerMore.

Context {message : Type}.
Implicit Types (st : state message) (m : message) (w : wire message) (c : ws).

Lemma all_open_elem st c : all_open st → c ∈ connected_clients st → open_in st c.
Proof.
  unfold all_open. rewrite Forall_forall. intros Ho Hc.
  apply Ho. by apply elem_of_elements.
Qed.

Lemma not_all_open st c : c ∈ connected_clients st → c ∈ closed st → ¬ all_open st.
Proof. intros Hc Hcl Ho. by apply (all_open_elem st c Ho Hc). Qed.

Lemma all_open_no_clients st : connected_clients st = ∅ → all_open st.
Proof. intros He. unfold all_open. rewrite He, elements_empty. constructor. Qed.

(** What [n] uninterrupted passes of the inner loop do. *)
Lemma run_Broadcast_inbox n : ∀ st st',
  run (replicate n Broadcast) st = Some st' →
  ∃ taken,
    length taken = n ∧
    items (message_queue st) = taken ++ items (message_queue st') ∧
    dequeued st' = dequeued st ++ taken ∧
    ∀ c, inbox c st'
         = inbox c st
           ++ if decide (c ∈ connected_clients st ∧ open_in st c)
              then map Sample taken else [].
Proof.
  induction n as [|n IH]; intros st st' Hrun.
  - cbn in Hrun. injection Hrun as <-. exists []. rewrite app_nil_r.
    repeat split; try done. intros c. destruct (decide _); by rewrite app_nil_r.
  - cbn [replicate run] in Hrun.
    destruct (exec Broadcast st) as [st1|] eqn:Hex; [|done].
    apply exec_Broadcast in Hex as (m & rest & Hq & ->).
    destruct (IH _ _ Hrun) as (taken & Hlen & Hq1 & Hd1 & Hin1).
    exists (m :: taken). cbn [length]. split; [by rewrite Hlen|].
    split; [rewrite Hq; cbn in Hq1; by rewrite Hq1|].
    split; [rewrite Hd1, dequeued_after_broadcast; by rewrite <- app_assoc|].
    intros c. rewrite Hin1, inbox_after_broadcast.
    change (connected_clients (after_broadcast m rest st)) with (connected_clients st).
    change (open_in (after_broadcast m rest st) c) with (open_in st c).
    destruct (decide (c ∈ connected_clients st ∧ open_in st c)).
    + by rewrite <- app_assoc.
    + by rewrite !app_nil_r.
Qed.

(** A tick on a state where every registered client is open. *)
Lemma tick_all_open st :
  all_open st →
  ∃ st', tick st = Some st' ∧
         items (message_queue st') = [] ∧
         dequeued st' = dequeued st ++ items (message_queue st) ∧
         connected_clients st' = connected_clients st ∧
         (∀ c, c ∈ connected_clients st →
               inbox c st' = inbox c st ++ map Sample (items (message_queue st))) ∧
         (∀ c, c ∉ connected_clients st → inbox c st' = inbox c st).
Proof.
  intros Ho.
  destruct (tick_total st) as (st' & taken & rest & Ht & Hq & Hq' & Hrun & Hopen & _).
  pose proof (Hopen Ho) as ->. rewrite app_nil_r in Hq.
  destruct (run_Broadcast_inbox _ _ _ Hrun) as (taken' & _ & Hq1 & Hd & Hin).
  rewrite Hq', app_nil_r in Hq1.
  assert (taken' = items (message_queue st)) as -> by done.
  apply run_Broadcast_frame in Hrun as (Hcc & _).
  exists st'. repeat split; try done.
  - intros c Hc. rewrite Hin. rewrite decide_True; [done|].
    split; [done|by apply all_open_elem].
  - intros c Hc. rewrite Hin. rewrite decide_False; [apply app_nil_r|]. by intros [? _].
Qed.

(** X1.  Samples that are drained while no client is registered are
    discarded: the tick empties the queue and no inbox changes. *)
Theorem tick_without_clients_discards st :
  connected_clients st = ∅ →
  ∃ st', tick st = Some st' ∧
         items (message_queue st') = [] ∧
         dequeued st' = dequeued st ++ items (message_queue st) ∧
         ∀ c, inbox c st' = inbox c st.
Proof.
  intros He.
  destruct (tick_all_open st (all_open_no_clients st He))
    as (st' & Ht & Hq & Hd & _ & _ & Hout).
  exists st'. repeat split; try done.
  intros c. apply Hout. rewrite He. apply not_elem_of_empty.
Qed.

(** X2.  When the connection of every registered client is open, one tick
    hands the whole queue, in queue order, to each registered client and to
    nobody else, and leaves the queue empty. *)
Theorem tick_delivers_whole_queue st :
  all_open st →
  ∃ st', tick st = Some st' ∧
         items (message_queue st') = [] ∧
         (∀ c, c ∈ connected_clients st →
               inbox c st' = inbox c st ++ map Sample (items (message_queue st))) ∧
         (∀ c, c ∉ connected_clients st → inbox c st' = inbox c st).
Proof.
  intros Ho. destruct (tick_all_open st Ho) as (st' & Ht & Hq & _ & _ & Hin & Hout).
  by exists st'.
Qed.

(** X3.  While a registered client has a closed connection and its handler
    has not yet removed it, the broadcaster gets through one sample a tick:
    [n] ticks dequeue the first [n] queued samples and hand them to the
    clients whose connection is open; the others stay queued. *)
Theorem stuck_client_throttles n : ∀ st c0,
  c0 ∈ connected_clients st → c0 ∈ closed st →
  ∃ st', broadcast_messages n st = Some st' ∧
         items (message_queue st') = drop n (items (message_queue st)) ∧
         dequeued st' = dequeued st ++ take n (items (message_queue st)) ∧
         connected_clients st' = connected_clients st ∧
         ∀ c, c ∈ connected_clients st → c ∉ closed st →
              inbox c st' = inbox c st ++ map Sample (take n (items (message_queue st))).
Proof.
  induction n as [|n IH]; intros st c0 Hc0 Hcl.
  - exists st. cbn. rewrite drop_0, take_0, app_nil_r.
    repeat split; try done. intros c _ _. by rewrite app_nil_r.
  - cbn [broadcast_messages].
    destruct (items (message_queue st)) as [|m rest] eqn:Hq.
    + rewrite (tick_idle st Hq).
      destruct (IH st c0 Hc0 Hcl) as (st' & Hb & Hi & Hd & Hcc & Hin).
      rewrite Hq in Hi, Hd, Hin. rewrite drop_nil in Hi. rewrite take_nil in Hd, Hin.
      exists st'. by rewrite drop_nil, take_nil.
    + rewrite (tick_failing st m rest Hq (not_all_open st c0 Hc0 Hcl)).
      destruct (IH (after_broadcast m rest st) c0 Hc0 Hcl) as (st' & Hb & Hi & Hd & Hcc & Hin).
      exists st'. split; [done|]. split; [done|].
      split; [rewrite Hd, dequeued_after_broadcast; cbn; by rewrite <- app_assoc|].
      split; [done|].
      intros c Hc Ho. rewrite (Hin c Hc Ho), inbox_after_broadcast.
      rewrite decide_True by done. cbn. by rewrite <- app_assoc.
Qed.

(** One label never hands anything to a closed connection. *)
Lemma exec_closed_inbox l st st' c :
  c ∈ closed st → exec l st = Some st' → inbox c st' = inbox c st.
Proof.
  intros Hcl Hex. destruct l as [c'|c'|c'|m|].
  - apply exec_Connect in Hex as [Hk ->].
    destruct (decide (c' ∈ closed st)) as [Hc'|Hc'].
    + rewrite inbox_emits. cbn. apply app_nil_r.
    + unfold inbox. cbn. rewrite omap_app. cbn.
      rewrite decide_False by (intros ->; done). apply app_nil_r.
  - cbn in Hex. by injection Hex as <-.
  - apply exec_Disconnect in Hex as (_ & _ & ->).
    destruct (decide (c' ∈ connected_clients st)); [|done].
    rewrite inbox_emits. cbn. apply app_nil_r.
  - apply exec_Enqueue in Hex as ->. rewrite inbox_emits. cbn. apply app_nil_r.
  - apply exec_Broadcast in Hex as (m & rest & _ & ->).
    rewrite inbox_after_broadcast. rewrite decide_False; [apply app_nil_r|].
    intros [_ Ho]. by apply Ho.
Qed.

Lemma run_closed_inbox ls c : ∀ st st',
  c ∈ closed st → run ls st = Some st' → inbox c st' = inbox c st.
Proof.
  induction ls as [|l ls IH]; intros st st' Hcl Hrun; cbn in Hrun.
  - by injection Hrun as <-.
  - destruct (exec l st) as [st1|] eqn:Hex; [|done].
    rewrite (IH st1 st'); [by eapply exec_closed_inbox| |done].
    by apply (exec_closed_mono _ _ _ Hex).
Qed.

(** X4.  Once a connection is closed, its client receives nothing more,
    whatever the server does afterwards. *)
Theorem closed_connection_receives_nothing ls st st' c :
  c ∈ closed st → run ls st = Some st' →
  inbox c st' = inbox c st ∧ c ∈ closed st'.
Proof.
  intros Hcl Hrun. split; [by eapply run_closed_inbox|].
  by apply (run_closed_mono _ _ _ Hrun).
Qed.

(** X5.  A connection that is already closed when [handler] sends the
    welcome leaves no trace in the registry: the handle is added and removed
    again in the same step, no handler is left waiting, the client count is
    what it was and the client has received nothing. *)
Theorem connect_on_closed_connection st st' c :
  reachable st → c ∈ closed st → exec (Connect c) st = Some st' →
  connected_clients st' = connected_clients st ∧
  waiting st' = waiting st ∧
  client_count st' = client_count st ∧
  adds st' = S (adds st) ∧ removes st' = S (removes st) ∧
  inbox c st' = [].
Proof.
  intros Hr Hcl Hex. apply reachable_inv in Hr.
  apply exec_Connect in Hex as [Hk ->]. rewrite decide_True by done.
  assert (c ∉ connected_clients st) as Hcc by (pose proof (inv_known st Hr); set_solver).
  assert (({[c]} ∪ connected_clients st) ∖ {[c]} = connected_clients st) as Heq
    by set_solver.
  rewrite adds_emits, removes_emits, inbox_emits. unfold client_count. cbn.
  rewrite Heq. repeat split; try done.
  - unfold adds. cbn. lia.
  - unfold removes. cbn. lia.
  - rewrite app_nil_r. apply (inv_fresh st Hr c Hk).
Qed.

(** The registered handles are those whose handler is suspended in
    [wait_closed()]. *)
Lemma exec_registered_waiting l st st' :
  inv st → connected_clients st = waiting st → exec l st = Some st' →
  connected_clients st' = waiting st'.
Proof.
  intros Hinv Heq Hex. destruct l as [c|c|c|m|].
  - apply exec_Connect in Hex as [Hk ->].
    assert (c ∉ connected_clients st) as Hcc by (pose proof (inv_known st Hinv); set_solver).
    destruct (decide (c ∈ closed st)); cbn; set_solver.
  - cbn in Hex. by injection Hex as <-.
  - apply exec_Disconnect in Hex as (Hw & _ & ->).
    rewrite decide_True by set_solver. cbn. set_solver.
  - by apply exec_Enqueue in Hex as ->.
  - by apply exec_Broadcast in Hex as (m & rest & _ & ->).
Qed.

Lemma run_registered_waiting ls : ∀ st st',
  inv st → connected_clients st = waiting st → run ls st = Some st' →
  connected_clients st' = waiting st'.
Proof.
  induction ls as [|l ls IH]; intros st st' Hinv Heq Hrun; cbn in Hrun.
  - by injection Hrun as <-.
  - destruct (exec l st) as [st1|] eqn:Hex; [|done].
    apply (IH st1); [by eapply inv_exec|by eapply exec_registered_waiting|done].
Qed.

(** X6.  No registration leaks and none is orphaned: in every reachable
    state the registered handles are exactly those whose handler is
    suspended in [wait_closed()], and for each of them whose connection has
    closed the handler can resume and its removal takes the handle out of
    the registry. *)
Theorem registered_iff_handler_waiting st :
  reachable st →
  connected_clients st = waiting st ∧
  ∀ c, c ∈ connected_clients st → c ∈ closed st →
       ∃ st', exec (Disconnect c) st = Some st' ∧
              connected_clients st' = connected_clients st ∖ {[c]} ∧
              reachable st'.
Proof.
  intros Hr. pose proof Hr as [ls Hrun].
  assert (connected_clients st = waiting st) as Heq.
  { eapply run_registered_waiting; [apply inv_init|done|done]. }
  split; [done|]. intros c Hc Hcl.
  assert (exec (Disconnect c) st
          = Some (emits [EvRemove c]
                    (set_clients (connected_clients st ∖ {[c]})
                       (set_waiting (waiting st ∖ {[c]}) st)))) as Hex.
  { cbn [exec]. rewrite decide_True by (rewrite <- Heq; done).
    rewrite handler_disconnect_eq. by rewrite decide_True. }
  eexists. split; [exact Hex|]. split; [done|].
  eapply (reachable_run [Disconnect c]); [done|]. cbn [run]. by rewrite Hex.
Qed.

(** A handle that has been registered and removed is not registered again. *)
Lemma exec_gone l st st' c :
  c ∈ known st → c ∉ connected_clients st → exec l st = Some st' →
  c ∈ known st' ∧ c ∉ connected_clients st'.
Proof.
  intros Hk Hcc Hex. destruct l as [c'|c'|c'|m|].
  - apply exec_Connect in Hex as [Hk' ->].
    assert (c ≠ c') by (intros ->; done).
    destruct (decide (c' ∈ closed st)); cbn; set_solver.
  - cbn in Hex. by injection Hex as <-.
  - apply exec_Disconnect in Hex as (_ & _ & ->).
    destruct (decide (c' ∈ connected_clients st)); cbn; set_solver.
  - by apply exec_Enqueue in Hex as ->.
  - by apply exec_Broadcast in Hex as (m & rest & _ & ->).
Qed.

Lemma run_gone ls c : ∀ st st',
  c ∈ known st → c ∉ connected_clients st → run ls st = Some st' →
  c ∈ known st' ∧ c ∉ connected_clients st'.
Proof.
  induction ls as [|l ls IH]; intros st st' Hk Hcc Hrun; cbn in Hrun.
  - by injection Hrun as <-.
  - destruct (exec l st) as [st1|] eqn:Hex; [|done].
    destruct (exec_gone _ _ _ c Hk Hcc Hex) as [Hk1 Hcc1]. by apply (IH st1).
Qed.

(** X7.  After the handler of a client has run its [finally], the client
    is out of the registry for good and receives nothing more, whatever
    happens afterwards. *)
Theorem disconnected_client_is_gone st st1 ls st' c :
  reachable st → exec (Disconnect c) st = Some st1 → run ls st1 = Some st' →
  (c ∉ connected_clients st') ∧ inbox c st' = inbox c st.
Proof.
  intros Hr Hex Hrun. apply reachable_inv in Hr.
  pose proof (exec_closed_mono _ _ _ Hex) as Hmono.
  pose proof Hex as Hex'.
  apply exec_Disconnect in Hex' as (Hw & Hcl & ->).
  assert (c ∈ connected_clients st) as Hcc by (by apply (inv_wait st Hr)).
  rewrite decide_True in Hrun, Hex, Hmono by done.
  split.
  - eapply (run_gone ls c); [| |exact Hrun]; cbn.
    + by apply (inv_known st Hr).
    + set_solver.
  - rewrite (run_closed_inbox ls c _ _ (Hmono _ Hcl) Hrun).
    rewrite inbox_emits. cbn. apply app_nil_r.
Qed.

(** The stream of a client: nothing yet, or its welcome and then samples. *)
Lemma exec_stream l st st' c :
  inv st →
  (inbox c st = [] ∨ ∃ ms, inbox c st = Welcome :: map Sample ms) →
  exec l st = Some st' →
  inbox c st' = [] ∨ ∃ ms, inbox c st' = Welcome :: map Sample ms.
Proof.
  intros Hinv Hs Hex. destruct l as [c'|c'|c'|m|].
  - apply exec_Connect in Hex as [Hk ->].
    destruct (decide (c' ∈ closed st)).
    + rewrite inbox_emits. cbn. by rewrite app_nil_r.
    + unfold inbox. cbn. rewrite omap_app. cbn.
      destruct (decide (c' = c)) as [->|Hne].
      * right. exists []. pose proof (inv_fresh st Hinv c Hk) as Hf.
        unfold inbox in Hf. by rewrite Hf.
      * by rewrite app_nil_r.
  - cbn in Hex. by injection Hex as <-.
  - apply exec_Disconnect in Hex as (_ & _ & ->).
    destruct (decide (c' ∈ connected_clients st)); [|done].
    rewrite inbox_emits. cbn. by rewrite app_nil_r.
  - apply exec_Enqueue in Hex as ->. rewrite inbox_emits. cbn. by rewrite app_nil_r.
  - apply exec_Broadcast in Hex as (m & rest & _ & ->).
    rewrite inbox_after_broadcast.
    destruct (decide (c ∈ connected_clients st ∧ open_in st c)) as [[Hc _]|_].
    + destruct Hs as [He|[ms Hms]]; [by destruct (inv_member st Hinv c Hc)|].
      right. exists (ms ++ [m]). by rewrite Hms, map_app.
    + by rewrite app_nil_r.
Qed.

Lemma run_stream ls c : ∀ st st',
  inv st →
  (inbox c st = [] ∨ ∃ ms, inbox c st = Welcome :: map Sample ms) →
  run ls st = Some st' →
  inbox c st' = [] ∨ ∃ ms, inbox c st' = Welcome :: map Sample ms.
Proof.
  induction ls as [|l ls IH]; intros st st' Hinv Hs Hrun; cbn in Hrun.
  - by injection Hrun as <-.
  - destruct (exec l st) as [st1|] eqn:Hex; [|done].
    apply (IH st1); [by eapply inv_exec|by eapply exec_stream|done].
Qed.

(** X8.  What a client receives is one welcome message followed by samples
    only: the welcome is never repeated and nothing else is ever sent; a
    registered client has received its welcome. *)
Theorem client_stream_shape st c :
  reachable st →
  (inbox c st = [] ∨ ∃ ms, inbox c st = Welcome :: map Sample ms) ∧
  (c ∈ connected_clients st → ∃ ms, inbox c st = Welcome :: map Sample ms).
Proof.
  intros Hr. pose proof Hr as [ls Hrun].
  assert (inbox c st = [] ∨ ∃ ms, inbox c st = Welcome :: map Sample ms) as Hs.
  { eapply (run_stream ls c); [apply inv_init| |exact Hrun]. by left. }
  split; [done|]. intros Hc.
  destruct Hs as [He|Hs]; [|done].
  by destruct (inv_member st (reachable_inv _ Hr) c Hc).
Qed.

(** X9.  The order in which the set of clients is walked does not matter:
    for two orders of the same distinct clients, the fan-out raises in one
    exactly when it raises in the other, and every client ends with the
    same inbox. *)
Theorem gather_order_irrelevant w (cs cs' : list ws) st :
  NoDup cs → cs ≡ₚ cs' →
  ((∃ st1, gather (map (λ c, ws_send c w) cs) st = Ok tt st1) ↔
   (∃ st2, gather (map (λ c, ws_send c w) cs') st = Ok tt st2)) ∧
  ∀ c, inbox c (state_of (gather (map (λ c, ws_send c w) cs) st))
       = inbox c (state_of (gather (map (λ c, ws_send c w) cs') st)).
Proof.
  intros Hnd Hp. rewrite !gather_sends.
  assert (Forall (open_in st) cs ↔ Forall (open_in st) cs') as HF by (by rewrite Hp).
  split.
  - destruct (decide (Forall (open_in st) cs)) as [H1|H1];
      destruct (decide (Forall (open_in st) cs')) as [H2|H2]; try tauto.
    + split; intros _; by eexists.
    + split; intros [? [=]].
  - intros c.
    assert (∀ l, state_of ((if decide (Forall (open_in st) l)
                            then Ok tt else Raise ConnectionClosed)
                             (emits (deliveries w l st) st))
                 = emits (deliveries w l st) st) as Hst.
    { intros l. by destruct (decide _). }
    rewrite !Hst, !inbox_emits.
    rewrite !deliveries_recv by (done || by rewrite <- Hp).
    f_equal. destruct (decide (c ∈ cs ∧ open_in st c)) as [[H1 H2]|Hn].
    + rewrite decide_True; [done|]. split; [by rewrite <- Hp|done].
    + rewrite decide_False; [done|]. intros [H1 H2]. apply Hn.
      split; [by rewrite Hp|done].
Qed.

End ServerMore.

(** ** Part 5: further properties of the extractor and of the camera loop *)

Lemma extract_arm_error l s w :
  (∃ e, Pose.extract_arm l s w = inl e) ↔ arm_out_of_range l s w.
Proof.
  unfold Pose.extract_arm, Pose.index, arm_out_of_range.
  destruct (l !! s) as [ls|] eqn:Hs.
  - destruct (Pose.visible ls) eqn:Hv.
    + destruct (l !! w) as [lw|] eqn:Hw.
      * split.
        -- intros [e He]. by destruct (Pose.visible lw).
        -- intros [|(ls' & _ & _ & ?)]; done.
      * split; [|by eexists]. intros _. right. by exists ls.
    + split; [by intros [e ?]|].
      intros [|(ls' & [= <-] & ? & _)]; [done|congruence].
  - split; [by left|by eexists].
Qed.

(** X10.  [extract_arm_data] raises [IndexError] exactly when the landmark
    list is present and too short for a landmark it reads: a shoulder is
    missing, or a shoulder is visible and its wrist is missing (the wrist of
    an invisible shoulder is never indexed).  On a list of at least 17
    landmarks it always returns. *)
Theorem extract_arm_data_index_error now r :
  (Pose.extract_arm_data now r = inl Pose.IndexError ↔
   ∃ l, Pose.pose_world_landmarks r = Some l ∧
        (arm_out_of_range l Pose.LEFT_SHOULDER Pose.LEFT_WRIST ∨
         arm_out_of_range l Pose.RIGHT_SHOULDER Pose.RIGHT_WRIST)) ∧
  (∀ l, Pose.pose_world_landmarks r = Some l → 17 ≤ length l →
        ∃ d, Pose.extract_arm_data now r = inr d).
Proof.
  unfold Pose.extract_arm_data.
  destruct (Pose.pose_world_landmarks r) as [l|] eqn:Hr.
  - pose proof (extract_arm_error l Pose.LEFT_SHOULDER Pose.LEFT_WRIST) as HL.
    pose proof (extract_arm_error l Pose.RIGHT_SHOULDER Pose.RIGHT_WRIST) as HR.
    split.
    + destruct (Pose.extract_arm l Pose.LEFT_SHOULDER Pose.LEFT_WRIST) as [[]|a] eqn:Ha.
      * split; [|done]. intros _. exists l. split; [done|]. left. apply HL. by eexists.
      * destruct (Pose.extract_arm l Pose.RIGHT_SHOULDER Pose.RIGHT_WRIST) as [[]|b] eqn:Hb.
        -- split; [|done]. intros _. exists l. split; [done|]. right. apply HR. by eexists.
        -- split; [done|]. intros (l' & [= <-] & [H|H]).
           ++ apply HL in H as [e He]. done.
           ++ apply HR in H as [e He]. done.
    + intros l' [= <-] Hlen.
      assert (∀ s w, s < 17 → w < 17 → ∃ a, Pose.extract_arm l s w = inr a) as Hok.
      { intros s w Hs Hw.
        destruct (Pose.extract_arm l s w) as [e|a] eqn:Ha; [|by eexists].
        assert (arm_out_of_range l s w) as [Hn|(ls & _ & _ & Hn)]
          by (apply extract_arm_error; by eexists).
        - apply lookup_ge_None in Hn. lia.
        - apply lookup_ge_None in Hn. lia. }
      destruct (Hok Pose.LEFT_SHOULDER Pose.LEFT_WRIST) as [a ->];
        [unfold Pose.LEFT_SHOULDER; lia|unfold Pose.LEFT_WRIST; lia|].
      destruct (Hok Pose.RIGHT_SHOULDER Pose.RIGHT_WRIST) as [b ->];
        [unfold Pose.RIGHT_SHOULDER; lia|unfold Pose.RIGHT_WRIST; lia|].
      by eexists.
  - split; [|done]. split; [done|]. by intros (l & ? & _).
Qed.

(** X11.  [extract_arm_data] looks at the two shoulders and the two wrists
    only: two landmark lists that agree on these four give the same result,
    error included. *)
Theorem extract_arm_data_reads_four_landmarks now l l' :
  (∀ i, i ∈ [Pose.LEFT_SHOULDER; Pose.RIGHT_SHOULDER; Pose.LEFT_WRIST; Pose.RIGHT_WRIST]
        → l !! i = l' !! i) →
  Pose.extract_arm_data now (Pose.PoseResult (Some l))
  = Pose.extract_arm_data now (Pose.PoseResult (Some l')).
Proof.
  intros Hagree. unfold Pose.extract_arm_data, Pose.extract_arm, Pose.index. cbn.
  rewrite !Hagree; [done|set_solver..].
Qed.

Lemma extract_arm_visible l s w a :
  Pose.extract_arm l s w = inr (Some a) →
  PrimFloat.ltb 0.5 (Pose.pvisibility (Pose.shoulder a)) = true ∧
  PrimFloat.ltb 0.5 (Pose.pvisibility (Pose.wrist a)) = true.
Proof.
  unfold Pose.extract_arm, Pose.index.
  destruct (l !! s) as [ls|]; [|done].
  destruct (Pose.visible ls) eqn:Hs; [|done].
  destruct (l !! w) as [lw|]; [|done].
  destruct (Pose.visible lw) eqn:Hw; [|done].
  by intros [= <-].
Qed.

(** X12.  Whatever the input, an arm that [extract_arm_data] reports carries
    a shoulder visibility and a wrist visibility that both exceed 0.5 (so
    neither is NaN). *)
Theorem reported_arms_are_visible now r d a :
  Pose.extract_arm_data now r = inr d →
  Pose.left_arm d = Some a ∨ Pose.right_arm d = Some a →
  PrimFloat.ltb 0.5 (Pose.pvisibility (Pose.shoulder a)) = true ∧
  PrimFloat.ltb 0.5 (Pose.pvisibility (Pose.wrist a)) = true.
Proof.
  unfold Pose.extract_arm_data.
  destruct (Pose.pose_world_landmarks r) as [l|].
  - destruct (Pose.extract_arm l Pose.LEFT_SHOULDER Pose.LEFT_WRIST) as [|x] eqn:Hl; [done|].
    destruct (Pose.extract_arm l Pose.RIGHT_SHOULDER Pose.RIGHT_WRIST) as [|y] eqn:Hr; [done|].
    intros [= <-]. cbn. intros [->| ->]; by eapply extract_arm_visible.
  - intros [= <-]. cbn. by intros [|].
Qed.

Lemma extract_arm_data_total now r :
  Pose.well_formed r →
  ∃ d, Pose.extract_arm_data now r = inr d ∧ Pose.timestamp d = now.
Proof.
  unfold Pose.well_formed, Pose.extract_arm_data.
  destruct (Pose.pose_world_landmarks r) as [l|] eqn:Hr; intros Hwf; [|by eexists].
  assert (∀ i, i < Pose.NUM_LANDMARKS → is_Some (l !! i)) as Hl.
  { intros i Hi. apply lookup_lt_is_Some. by rewrite Hwf. }
  destruct (Hl Pose.LEFT_SHOULDER) as [ls Hls]; [unfold Pose.LEFT_SHOULDER, Pose.NUM_LANDMARKS; lia|].
  destruct (Hl Pose.LEFT_WRIST) as [lw Hlw]; [unfold Pose.LEFT_WRIST, Pose.NUM_LANDMARKS; lia|].
  destruct (Hl Pose.RIGHT_SHOULDER) as [rs Hrs]; [unfold Pose.RIGHT_SHOULDER, Pose.NUM_LANDMARKS; lia|].
  destruct (Hl Pose.RIGHT_WRIST) as [rw Hrw]; [unfold Pose.RIGHT_WRIST, Pose.NUM_LANDMARKS; lia|].
  destruct (extract_arm_reports r l _ _ _ _ Hr Hls Hlw) as (a & -> & _).
  destruct (extract_arm_reports r l _ _ _ _ Hr Hrs Hrw) as (b & -> & _).
  by eexists.
Qed.

Lemma process_frame_queues res lms now t :
  reachable (Camera.server t) → Camera.server_running t = true →
  Camera.pose_landmarks res = Some lms → Pose.NUM_LANDMARKS ≤ length lms →
  Pose.well_formed (Camera.pose_world res) →
  ∃ d s',
    Pose.extract_arm_data now (Camera.pose_world res) = inr d ∧
    Pose.timestamp d = now ∧
    Camera.process_frame res now t = Camera.Done (Camera.Tracker s' true) ∧
    exec (Enqueue d) (Camera.server t) = Some s' ∧
    items (message_queue s') = items (message_queue (Camera.server t)) ++ [d].
Proof.
  intros Hr Hrun Hlm Hlen Hwf.
  destruct (extract_arm_data_total now _ Hwf) as (d & Hd & Hts).
  assert (∃ s', queue_message d (Camera.server t) = Some s' ∧
                items (message_queue s') = items (message_queue (Camera.server t)) ++ [d])
    as (s' & Hq & Hi).
  { unfold queue_message, Queue_put.
    rewrite decide_False by (rewrite (inv_max _ (reachable_inv _ Hr)); lia).
    by eexists. }
  exists d, s'. unfold Camera.process_frame, Camera.draw_landmarks.
  rewrite Hlm, decide_False by lia. rewrite Hd, Hrun, Hq. by cbn [exec].
Qed.

(** X13.  With the server running, a frame in which MediaPipe found a pose
    (its 33 image landmarks, and world landmarks as MediaPipe gives them)
    puts exactly one record at the tail of the queue: the record
    [extract_arm_data] builds, stamped with the time of the call.  The
    camera thread is neither held up nor does it raise, however long the
    queue is, and the flag and the registry are as before. *)
Theorem frame_is_queued res lms now t :
  reachable (Camera.server t) → Camera.server_running t = true →
  Camera.pose_landmarks res = Some lms → Pose.NUM_LANDMARKS ≤ length lms →
  Pose.well_formed (Camera.pose_world res) →
  ∃ d t',
    Pose.extract_arm_data now (Camera.pose_world res) = inr d ∧
    Pose.timestamp d = now ∧
    Camera.process_frame res now t = Camera.Done t' ∧
    items (message_queue (Camera.server t'))
    = items (message_queue (Camera.server t)) ++ [d] ∧
    connected_clients (Camera.server t') = connected_clients (Camera.server t) ∧
    Camera.server_running t' = true ∧
    reachable (Camera.server t').
Proof.
  intros Hr Hrun Hlm Hlen Hwf.
  destruct (process_frame_queues res lms now t Hr Hrun Hlm Hlen Hwf)
    as (d & s' & Hd & Hts & Hp & Hex & Hq).
  exists d, (Camera.Tracker s' true). repeat split; try done.
  - by apply exec_Enqueue in Hex as ->.
  - apply (reachable_run [Enqueue d] (Camera.server t)); [done|].
    cbn [run]. by rewrite Hex.
Qed.

(** X14.  From the camera to the clients: with the server running, the
    queue empty and the connections of the registered clients open, the
    record extracted from a frame with a pose (33 image landmarks) is, after the next tick, the last message
    in the inbox of every registered client, unchanged, and the queue is
    empty again. *)
Theorem frame_reaches_every_client res lms now t :
  reachable (Camera.server t) → Camera.server_running t = true →
  Camera.pose_landmarks res = Some lms → Pose.NUM_LANDMARKS ≤ length lms →
  Pose.well_formed (Camera.pose_world res) →
  items (message_queue (Camera.server t)) = [] → all_open (Camera.server t) →
  ∃ d t' s'',
    Pose.extract_arm_data now (Camera.pose_world res) = inr d ∧
    Camera.process_frame res now t = Camera.Done t' ∧
    tick (Camera.server t') = Some s'' ∧
    items (message_queue s'') = [] ∧
    ∀ c, c ∈ connected_clients (Camera.server t) →
         inbox c s'' = inbox c (Camera.server t) ++ [Sample d].
Proof.
  intros Hr Hrun Hlm Hlen Hwf Hq Ho.
  destruct (process_frame_queues res lms now t Hr Hrun Hlm Hlen Hwf)
    as (d & s' & Hd & _ & Hp & Hex & Hq').
  pose proof (exec_Enqueue _ _ _ Hex) as Hs'.
  assert (all_open s') as Ho' by (by subst s').
  destruct (tick_all_open s' Ho') as (s'' & Ht & He & _ & _ & Hin & _).
  exists d, (Camera.Tracker s' true), s''. repeat split; try done.
  intros c Hc. rewrite Hin by (by subst s').
  rewrite Hq', Hq. cbn. f_equal. subst s'. rewrite inbox_emits. cbn. apply app_nil_r.
Qed.

(** X16.  Whether the camera loop ends depends on the low byte of the key
    code only: it ends exactly when the code is 113 modulo 256. *)
Theorem quit_key_low_byte key :
  Camera.quit_key key = true ↔ (key mod 256 = 113)%Z.
Proof.
  unfold Camera.quit_key.
  change 255%Z with (Z.ones 8). rewrite Z.land_ones by lia.
  change (2 ^ 8)%Z with 256%Z. apply Z.eqb_eq.
Qed.

(** ** Concrete runs for the further properties *)

Lemma tick_without_clients_witness :
  ∃ st', tick (@state_after nat [Enqueue 7; Enqueue 8]) = Some st' ∧
         items (message_queue st') = [] ∧ dequeued st' = [7; 8].
Proof.
  destruct (tick_without_clients_discards (@state_after nat [Enqueue 7; Enqueue 8]))
    as (st' & Ht & Hq & Hd & _).
  - vm_compute. reflexivity.
  - exists st'. split; [exact Ht|]. split; [exact Hq|]. exact Hd.
Defined.

Lemma tick_delivers_witness :
  ∃ st', tick (@state_after nat [Connect 1; Connect 2; Enqueue 7; Enqueue 8]) = Some st' ∧
         inbox 2 st' = [Welcome; Sample 7; Sample 8].
Proof.
  destruct (tick_delivers_whole_queue
              (@state_after nat [Connect 1; Connect 2; Enqueue 7; Enqueue 8]))
    as (st' & Ht & _ & Hin & _).
  - unfold all_open. by_computing.
  - exists st'. split; [exact Ht|]. rewrite (Hin 2); [vm_compute; reflexivity|by_computing].
Defined.

Lemma stuck_client_witness :
  ∃ st', broadcast_messages 2
           (@state_after nat [Connect 1; Connect 2; PeerClose 1;
                              Enqueue 7; Enqueue 8; Enqueue 9]) = Some st' ∧
         items (message_queue st') = [9] ∧
         inbox 2 st' = [Welcome; Sample 7; Sample 8].
Proof.
  destruct (stuck_client_throttles 2
              (@state_after nat [Connect 1; Connect 2; PeerClose 1;
                                 Enqueue 7; Enqueue 8; Enqueue 9]) 1)
    as (st' & Hb & Hq & _ & _ & Hin).
  - by_computing.
  - by_computing.
  - exists st'. split; [exact Hb|]. split; [exact Hq|].
    rewrite (Hin 2); [vm_compute; reflexivity|by_computing|by_computing].
Defined.

Lemma closed_connection_witness :
  inbox 1 (@state_after nat [Connect 1; PeerClose 1; Enqueue 7; Broadcast])
  = [Welcome].
Proof.
  destruct (closed_connection_receives_nothing [Enqueue 7; Broadcast]
              (@state_after nat [Connect 1; PeerClose 1])
              (@state_after nat [Connect 1; PeerClose 1; Enqueue 7; Broadcast]) 1)
    as (Hin & _).
  - by_computing.
  - vm_compute. reflexivity.
  - etrans; [exact Hin|vm_compute; reflexivity].
Defined.

Lemma connect_on_closed_witness :
  connected_clients (@state_after nat [Connect 2; PeerClose 1; Connect 1])
  = connected_clients (@state_after nat [Connect 2; PeerClose 1])
  ∧ inbox 1 (@state_after nat [Connect 2; PeerClose 1; Connect 1]) = [].
Proof.
  destruct (connect_on_closed_connection
              (@state_after nat [Connect 2; PeerClose 1])
              (@state_after nat [Connect 2; PeerClose 1; Connect 1]) 1)
    as (Hcc & _ & _ & _ & _ & Hin).
  - exists [Connect 2; PeerClose 1]. vm_compute. reflexivity.
  - by_computing.
  - vm_compute. reflexivity.
  - split; [exact Hcc|exact Hin].
Defined.

Lemma registered_iff_waiting_witness :
  connected_clients (@state_after nat [Connect 1; Connect 2; PeerClose 1])
  = waiting (@state_after nat [Connect 1; Connect 2; PeerClose 1])
  ∧ ∃ st', exec (Disconnect 1) (@state_after nat [Connect 1; Connect 2; PeerClose 1])
           = Some st'.
Proof.
  destruct (registered_iff_handler_waiting
              (@state_after nat [Connect 1; Connect 2; PeerClose 1])) as (Heq & Hdis).
  - exists [Connect 1; Connect 2; PeerClose 1]. vm_compute. reflexivity.
  - split; [exact Heq|].
    destruct (Hdis 1) as (st' & Hex & _); [by_computing|by_computing|].
    exists st'. exact Hex.
Defined.

Lemma disconnected_client_witness :
  (1 ∉ connected_clients
         (@state_after nat [Connect 1; Connect 2; Enqueue 7; Broadcast; PeerClose 1;
                            Disconnect 1; Enqueue 8; Broadcast]))
  ∧ inbox 1 (@state_after nat [Connect 1; Connect 2; Enqueue 7; Broadcast; PeerClose 1;
                               Disconnect 1; Enqueue 8; Broadcast])
    = [Welcome; Sample 7].
Proof.
  destruct (disconnected_client_is_gone
              (@state_after nat [Connect 1; Connect 2; Enqueue 7; Broadcast; PeerClose 1])
              (@state_after nat [Connect 1; Connect 2; Enqueue 7; Broadcast; PeerClose 1;
                                 Disconnect 1])
              [Enqueue 8; Broadcast]
              (@state_after nat [Connect 1; Connect 2; Enqueue 7; Broadcast; PeerClose 1;
                                 Disconnect 1; Enqueue 8; Broadcast]) 1)
    as (Hout & Hin).
  - exists [Connect 1; Connect 2; Enqueue 7; Broadcast; PeerClose 1].
    vm_compute. reflexivity.
  - vm_compute. reflexivity.
  - vm_compute. reflexivity.
  - split; [exact Hout|]. etrans; [exact Hin|vm_compute; reflexivity].
Defined.

Lemma client_stream_witness :
  ∃ ms, inbox 1 (@state_after nat [Connect 1; Enqueue 7; Broadcast])
        = Welcome :: map Sample ms.
Proof.
  destruct (client_stream_shape (@state_after nat [Connect 1; Enqueue 7; Broadcast]) 1)
    as (_ & Hreg).
  - exists [Connect 1; Enqueue 7; Broadcast]. vm_compute. reflexivity.
  - apply Hreg. by_computing.
Defined.

Lemma gather_order_witness :
  inbox 2 (state_of (gather (map (λ c, ws_send c (Sample 7)) [1; 2])
                       (@state_after nat [PeerClose 1])))
  = inbox 2 (state_of (gather (map (λ c, ws_send c (Sample 7)) [2; 1])
                         (@state_after nat [PeerClose 1]))).
Proof.
  destruct (gather_order_irrelevant (Sample 7) [1; 2] [2; 1]
              (@state_after nat [PeerClose 1])) as (_ & Hin).
  - by_computing.
  - apply perm_swap.
  - exact (Hin 2).
Defined.

Lemma extract_index_error_witness :
  Pose.extract_arm_data 0%float
    (Pose.PoseResult (Some (replicate 12 (Pose.Landmark 0 0 0 0.75%float))))
  = inl Pose.IndexError.
Proof.
  apply (proj1 (extract_arm_data_index_error 0%float
                  (Pose.PoseResult (Some (replicate 12 (Pose.Landmark 0 0 0 0.75%float)))))).
  eexists. split; [reflexivity|]. left. right.
  eexists. split; [vm_compute; reflexivity|]. split; vm_compute; reflexivity.
Defined.

Lemma extract_reads_four_witness :
  Pose.extract_arm_data 0%float
    (Pose.PoseResult (Some (replicate 33 (Pose.Landmark 0 0 0 0.75%float))))
  = Pose.extract_arm_data 0%float
      (Pose.PoseResult (Some (Pose.Landmark 1 1 1 0%float
                              :: replicate 32 (Pose.Landmark 0 0 0 0.75%float)))).
Proof.
  apply extract_arm_data_reads_four_landmarks.
  intros i Hi. repeat (apply elem_of_cons in Hi as [->|Hi]; [vm_compute; reflexivity|]).
  by apply not_elem_of_nil in Hi.
Defined.

Lemma reported_arms_witness :
  PrimFloat.ltb 0.5 0.75 = true ∧ PrimFloat.ltb 0.5 0.875 = true.
Proof.
  pose (sh := Pose.Landmark 0 0 0 0.75%float).
  pose (wr := Pose.Landmark 0 0 0 0.875%float).
  pose (l := replicate 15 sh ++ [wr; wr] ++ replicate 16 sh).
  apply (reported_arms_are_visible 0%float (Pose.PoseResult (Some l))
           (Pose.ArmData 0%float
              (Some (Pose.Arm (Pose.Point 0 0 0 0.75) (Pose.Point 0 0 0 0.875)))
              (Some (Pose.Arm (Pose.Point 0 0 0 0.75) (Pose.Point 0 0 0 0.875))))
           (Pose.Arm (Pose.Point 0 0 0 0.75) (Pose.Point 0 0 0 0.875))).
  - vm_compute. reflexivity.
  - left. reflexivity.
Defined.

Lemma frame_is_queued_witness :
  ∃ d t',
    Camera.process_frame
      (Camera.Results (Some (replicate 33 (Pose.Landmark 0 0 0 0.75%float))) (Pose.PoseResult (Some (replicate 33 (Pose.Landmark 0 0 0 0.75%float)))))
      100%float (Camera.Tracker (state_after [Connect 1]) true) = Camera.Done t'
    ∧ items (message_queue (Camera.server t')) = [d]
    ∧ Pose.timestamp d = 100%float.
Proof.
  destruct (frame_is_queued
              (Camera.Results (Some (replicate 33 (Pose.Landmark 0 0 0 0.75%float))) (Pose.PoseResult (Some (replicate 33 (Pose.Landmark 0 0 0 0.75%float)))))
              (replicate 33 (Pose.Landmark 0 0 0 0.75%float)) 100%float (Camera.Tracker (state_after [Connect 1]) true))
    as (d & t' & _ & Hts & Hp & Hq & _).
  - exists [Connect 1]. vm_compute. reflexivity.
  - reflexivity.
  - reflexivity.
  - vm_compute. lia.
  - vm_compute. reflexivity.
  - exists d, t'. split; [exact Hp|]. split; [exact Hq|exact Hts].
Defined.

Lemma frame_reaches_client_witness :
  ∃ d t' s'',
    Camera.process_frame
      (Camera.Results (Some (replicate 33 (Pose.Landmark 0 0 0 0.75%float))) (Pose.PoseResult (Some (replicate 33 (Pose.Landmark 0 0 0 0.75%float)))))
      100%float (Camera.Tracker (state_after [Connect 1]) true) = Camera.Done t'
    ∧ tick (Camera.server t') = Some s''
    ∧ inbox 1 s'' = [Welcome; Sample d].
Proof.
  destruct (frame_reaches_every_client
              (Camera.Results (Some (replicate 33 (Pose.Landmark 0 0 0 0.75%float))) (Pose.PoseResult (Some (replicate 33 (Pose.Landmark 0 0 0 0.75%float)))))
              (replicate 33 (Pose.Landmark 0 0 0 0.75%float)) 100%float (Camera.Tracker (state_after [Connect 1]) true))
    as (d & t' & s'' & _ & Hp & Ht & _ & Hin).
  - exists [Connect 1]. vm_compute. reflexivity.
  - reflexivity.
  - reflexivity.
  - vm_compute. lia.
  - vm_compute. reflexivity.
  - vm_compute. reflexivity.
  - unfold all_open. by_computing.
  - exists d, t', s''. split; [exact Hp|]. split; [exact Ht|].
    rewrite (Hin 1); [vm_compute; reflexivity|by_computing].
Defined.

Lemma quit_key_witness : Camera.quit_key 1137 = true ∧ Camera.quit_key (-1) = false.
Proof.
  split.
  - apply (proj2 (quit_key_low_byte 1137)). reflexivity.
  - reflexivity.
Defined.
